(** * arenavec: a shallow embedding of the bump allocator and its containers

    The model follows the Rust sources of the crate:
    - [src/common.rs]: [allocate_inner], [allocate_or_extend_inner], [Slice],
      [SliceVec] and the backing-store helpers;
    - [src/rc.rs]: the reference-counted arena ([Arena::clear],
      [InnerRef::allocate_or_extend], [Arena::init_capacity]);
    - [src/region.rs]: the generation-token arena ([generation_token],
      [Drop for ArenaToken], [ArenaToken::allocate]).

    Arithmetic on [usize] is modelled on [Z] with the overflow checks of a
    debug build (the profile of [cargo test], which also enables every
    [debug_assert!]): an overflowing [+], [-] or [*] panics.  A panic is
    [None]; a completed call is [Some].  Addresses are [Z] values, and a
    pointer offset [p.add(n)] on a [*mut T] is [p + n * size_of::<T>()]. *)

From Stdlib Require Import ZArith List Bool Lia Permutation.
Import ListNotations.
Open Scope Z_scope.

(** ** Panicking computations *)

Definition bind {A B : Type} (m : option A) (k : A -> option B) : option B :=
  match m with
  | Some a => k a
  | None => None
  end.

Notation "x <- m ;; k" := (bind m (fun x => k))
  (at level 61, m at next level, right associativity).

(** [assert!(b)] *)
Definition assert (b : bool) : option unit := if b then Some tt else None.

(** ** [usize] arithmetic with debug overflow checks *)

Definition usize_modulus : Z := 2 ^ 64.

Definition add_chk (a b : Z) : option Z :=
  if a + b <? usize_modulus then Some (a + b) else None.

Definition sub_chk (a b : Z) : option Z :=
  if b <=? a then Some (a - b) else None.

Definition mul_chk (a b : Z) : option Z :=
  if a * b <? usize_modulus then Some (a * b) else None.

(** ** Layout of the element type [T] *)

Record Layout := mkLayout { size : Z; align : Z }.

(** [Layout::new::<T>()] is well formed: a positive alignment and a size that
    fit in a [usize]. *)
Definition wf_layout (l : Layout) : Prop :=
  0 <= size l < usize_modulus /\ 1 <= align l < usize_modulus.

(** [NonNull::<T>::dangling()]: the address [align_of::<T>()]. *)
Definition dangling (l : Layout) : Z := align l.

(** ** The bump cursor: [head], [position], [cap] of an arena *)

Record Cursor := mkCursor { head : Z; position : Z; cap : Z }.

Definition set_position (c : Cursor) (p : Z) : Cursor :=
  mkCursor (head c) p (cap c).

(** The backing buffer [head .. head + cap] lies in the address space and the
    cursor is a [usize]. *)
Definition wf_cursor (c : Cursor) : Prop :=
  0 <= head c /\ 0 <= cap c /\ head c + cap c < usize_modulus /\
  0 <= position c < usize_modulus.

(** [common::allocate_inner] (identical, up to the [println!] calls and the
    [debug_assert!] on the range of [ret], to [ArenaToken::allocate] in
    region.rs and [InnerRef::allocate] in rc.rs). *)
Definition allocate_inner (l : Layout) (c : Cursor) (count : Z) : option (Cursor * Z) :=
  mask <- sub_chk (align l) 1 ;;
  let pos := position c in
  _ <- assert (Z.land pos mask <=? align l) ;;
  skip0 <- sub_chk 64 (Z.land pos mask) ;;
  let skip := if skip0 =? align l then 0 else skip0 in
  bytes <- mul_chk (size l) count ;;
  additional <- add_chk skip bytes ;;
  total <- add_chk pos additional ;;
  _ <- assert (total <=? cap c) ;;
  let c' := set_position c total in
  off <- add_chk pos skip ;;
  let ret := head c + off in
  _ <- assert (head c <=? ret) ;;
  limit <- add_chk (head c) (cap c) ;;
  _ <- assert (ret <? limit) ;;
  Some (c', ret).

(** The [skip] computed by [allocate_inner], in unbounded arithmetic. *)
Definition skip_of (l : Layout) (pos : Z) : Z :=
  let s := 64 - Z.land pos (align l - 1) in
  if s =? align l then 0 else s.

(** [common::allocate_or_extend_inner]: [ptr] is a [NonNull<T>]. *)
Definition allocate_or_extend_inner (l : Layout) (c : Cursor) (ptr old_count count : Z)
  : option (Cursor * Z) :=
  let pos := position c in
  let next := head c + pos in
  let end_ := ptr + old_count * size l in
  if next =? end_ then
    d <- sub_chk count old_count ;;
    grow <- mul_chk d (size l) ;;
    p' <- add_chk pos grow ;;
    Some (set_position c p', ptr)
  else allocate_inner l c count.

(** [InnerRef::allocate_or_extend] (rc.rs) and
    [ArenaToken::allocate_or_extend] (region.rs): a raw [*mut T], with the
    null pointer (address [0]) sent to [allocate]. *)
Definition allocate_or_extend (l : Layout) (c : Cursor) (ptr old_count count : Z)
  : option (Cursor * Z) :=
  if ptr =? 0 then allocate_inner l c count
  else allocate_or_extend_inner l c ptr old_count count.

(** ** Fixed sequences and growable sequences (common.rs)

    The memory [ptr .. ptr + len * size_of::<T>()] of a sequence is modelled by
    the list of the [len] values stored there; [ptr::copy_nonoverlapping]
    moves that list to the new address. *)

Notation "' p <- m ;; k" := (bind m (fun p => k))
  (at level 61, p pattern, m at next level, right associativity).

Section Sequences.

Variable T : Type.

Record Slice := mkSlice { ptr : Z; elems : list T }.

Record SliceVec := mkSliceVec { slice : Slice; capacity : Z }.

Definition slice_len (s : Slice) : Z := Z.of_nat (length (elems s)).

Definition len (v : SliceVec) : Z := slice_len (slice v).

(** [Slice::new_empty] *)
Definition new_empty (l : Layout) (c : Cursor) (real_len : Z) : option (Cursor * Slice) :=
  if real_len =? 0 then Some (c, mkSlice (dangling l) [])
  else '(c', p) <- allocate_inner l c real_len ;; Some (c', mkSlice p []).

(** [Slice::new]: [len] copies of [T::default()]. *)
Definition slice_new (default : T) (l : Layout) (c : Cursor) (n : Z) : option (Cursor * Slice) :=
  '(c', res) <- new_empty l c n ;;
  Some (c', mkSlice (ptr res) (repeat default (Z.to_nat n))).

(** [SliceVec::with_capacity] *)
Definition with_capacity (l : Layout) (c : Cursor) (cap : Z) : option (Cursor * SliceVec) :=
  '(c', s) <- new_empty l c cap ;; Some (c', mkSliceVec s cap).

(** [SliceVec::new] *)
Definition slicevec_new (l : Layout) (c : Cursor) : option (Cursor * SliceVec) :=
  with_capacity l c 0.

(** The [while new_capacity < size { new_capacity *= 2; }] loop of
    [SliceVec::reserve].  Starting from a positive value the loop ends or the
    doubling overflows within 64 rounds, so 65 rounds of fuel are never used up. *)
Fixpoint grow_loop (fuel : nat) (new_capacity size : Z) : option Z :=
  match fuel with
  | O => None
  | S f =>
      if new_capacity <? size then
        n <- mul_chk new_capacity 2 ;; grow_loop f n size
      else Some new_capacity
  end.

(** [SliceVec::reserve] *)
Definition reserve (l : Layout) (c : Cursor) (v : SliceVec) (additional : Z)
  : option (Cursor * SliceVec) :=
  let p := ptr (slice v) in
  size <- add_chk (len v) additional ;;
  if size <=? capacity v then Some (c, v)
  else
    let start := if 0 <? capacity v then capacity v else 4 in
    new_capacity <- grow_loop 65 start size ;;
    '(c', new_ptr) <- allocate_or_extend_inner l c p (capacity v) new_capacity ;;
    let s := if negb (p =? new_ptr) then mkSlice new_ptr (elems (slice v)) else slice v in
    Some (c', mkSliceVec s new_capacity).

(** [SliceVec::push] *)
Definition push (l : Layout) (c : Cursor) (v : SliceVec) (elem : T)
  : option (Cursor * SliceVec) :=
  '(c1, v1) <-
    (if len v =? capacity v then
       new_capacity <- (if capacity v =? 0 then Some 4 else mul_chk (capacity v) 2) ;;
       d <- sub_chk new_capacity (capacity v) ;;
       reserve l c v d
     else Some (c, v)) ;;
  _ <- add_chk (len v1) 1 ;;
  Some (c1, mkSliceVec (mkSlice (ptr (slice v1)) (elems (slice v1) ++ [elem]))
                       (capacity v1)).

Fixpoint push_all (l : Layout) (c : Cursor) (v : SliceVec) (xs : list T)
  : option (Cursor * SliceVec) :=
  match xs with
  | [] => Some (c, v)
  | x :: xs' => '(c1, v1) <- push l c v x ;; push_all l c1 v1 xs'
  end.

(** [SliceVec::split_off]: returns the updated [self] and the new vector. *)
Definition split_off (l : Layout) (c : Cursor) (v : SliceVec) (at_ : Z)
  : option (Cursor * SliceVec * SliceVec) :=
  n <- sub_chk (len v) at_ ;;
  '(c', ret) <- with_capacity l c n ;;
  let ret := mkSliceVec
               (mkSlice (ptr (slice ret))
                        (firstn (Z.to_nat n) (skipn (Z.to_nat at_) (elems (slice v)))))
               (capacity ret) in
  Some (c', v, ret).


(** [SliceVec::is_empty] *)
Definition is_empty (v : SliceVec) : bool := len v =? 0.

(** [SliceVec::truncate]: [len] is a [usize]. *)
Definition truncate (v : SliceVec) (n : Z) : SliceVec :=
  if n <? len v
  then mkSliceVec (mkSlice (ptr (slice v)) (firstn (Z.to_nat n) (elems (slice v))))
                  (capacity v)
  else v.

(** The memory [ptr .. ptr + len] with the value at [i] replaced. *)
Fixpoint replace_nth (l : list T) (i : nat) (x : T) : list T :=
  match l, i with
  | [], _ => []
  | _ :: l', O => x :: l'
  | y :: l', S i' => y :: replace_nth l' i' x
  end.

(** [SliceVec::swap_remove]: [&mut self[index]] is bounds-checked; after
    [self.slice.len -= 1] the value at the new [len] is read and written
    into the hole by [ptr::replace], which returns the old value. *)
Definition swap_remove (v : SliceVec) (index : Z) : option (SliceVec * T) :=
  let es := elems (slice v) in
  hole <- nth_error es (Z.to_nat index) ;;
  let n := Nat.pred (length es) in
  last <- nth_error es n ;;
  Some (mkSliceVec (mkSlice (ptr (slice v)) (firstn n (replace_nth es (Z.to_nat index) last)))
                   (capacity v),
        hole).

(** [SliceVec::pop]: returns the updated vector and the result. *)
Definition pop (v : SliceVec) : SliceVec * option T :=
  if is_empty v then (v, None)
  else
    let n := Nat.pred (length (elems (slice v))) in
    (mkSliceVec (mkSlice (ptr (slice v)) (firstn n (elems (slice v)))) (capacity v),
     nth_error (elems (slice v)) n).

(** [SliceVec::append]: returns the updated [self] and [other].  The
    elements of [other] are copied to [self.slice.ptr + len], past the
    length of [self], which is not changed; [other.slice.len] is set to [0]. *)
Definition append (l : Layout) (c : Cursor) (v other : SliceVec)
  : option (Cursor * SliceVec * SliceVec) :=
  let count := len other in
  '(c', v') <- reserve l c v count ;;
  Some (c', v', mkSliceVec (mkSlice (ptr (slice other)) []) (capacity other)).

(** [SliceVec::clear] *)
Definition clear (v : SliceVec) : SliceVec :=
  mkSliceVec (mkSlice (ptr (slice v)) []) (capacity v).

(** [T::clone] *)
Variable clone : T -> T.

(** [SliceVec::resize]: [reserve] when the capacity is too small, then the
    loop writes [value.clone()] at [old_len .. len.saturating_sub(1)], and
    [value] itself goes to [len - 1] when the vector grows; a shrinking
    vector drops [len .. old_len]. *)
Definition resize (l : Layout) (c : Cursor) (v : SliceVec) (n : Z) (value : T)
  : option (Cursor * SliceVec) :=
  let old_len := len v in
  '(c1, v1) <- (if capacity v <? n then d <- sub_chk n old_len ;; reserve l c v d
               else Some (c, v)) ;;
  let es := elems (slice v1) ++ repeat (clone value) (Z.to_nat (Z.max (n - 1) 0 - old_len)) in
  let es := if n >? old_len then es ++ [value]
            else if n <? old_len then firstn (Z.to_nat n) es
            else es in
  Some (c1, mkSliceVec (mkSlice (ptr (slice v1)) es) (capacity v1)).

(** [k] calls of an [FnMut() -> T], as a step function on its captured
    state [S]: the final state and the values in call order. *)
Fixpoint call_n {S : Type} (f : S -> S * T) (k : nat) (s : S) : S * list T :=
  match k with
  | O => (s, [])
  | Datatypes.S k' =>
      let (s1, x) := f s in
      let (s2, xs) := call_n f k' s1 in
      (s2, x :: xs)
  end.

(** [SliceVec::resize_with]: as [resize], with [f()] called in the loop
    and once more for [len - 1]. *)
Definition resize_with {S : Type} (l : Layout) (c : Cursor) (v : SliceVec) (n : Z)
  (f : S -> S * T) (s : S) : option (Cursor * SliceVec * S) :=
  let old_len := len v in
  '(c1, v1) <- (if capacity v <? n then d <- sub_chk n old_len ;; reserve l c v d
               else Some (c, v)) ;;
  let (s1, xs) := call_n f (Z.to_nat (Z.max (n - 1) 0 - old_len)) s in
  let es := elems (slice v1) ++ xs in
  let '(s2, es) := if n >? old_len then let (s2, x) := f s1 in (s2, es ++ [x])
                   else if n <? old_len then (s1, firstn (Z.to_nat n) es)
                   else (s1, es) in
  Some (c1, mkSliceVec (mkSlice (ptr (slice v1)) es) (capacity v1), s2).

(** [SliceVec::extend_from_slice]: [self.push(e.clone())] for each [e]. *)
Definition extend_from_slice (l : Layout) (c : Cursor) (v : SliceVec) (other : list T)
  : option (Cursor * SliceVec) :=
  push_all l c v (map clone other).

(** [Clone for Slice]: [allocate(self.len)], also for an empty slice. *)
Definition slice_clone (l : Layout) (c : Cursor) (s : Slice) : option (Cursor * Slice) :=
  '(c', p) <- allocate_inner l c (slice_len s) ;;
  Some (c', mkSlice p (map clone (elems s))).

(** [Clone for SliceVec]: a vector of the same capacity, then the clones of
    the [len] elements. *)
Definition slicevec_clone (l : Layout) (c : Cursor) (v : SliceVec) : option (Cursor * SliceVec) :=
  '(c', w) <- with_capacity l c (capacity v) ;;
  Some (c', mkSliceVec (mkSlice (ptr (slice w)) (map clone (elems (slice v)))) (capacity w)).
End Sequences.

Arguments mkSlice {T}.
Arguments ptr {T}.
Arguments elems {T}.
Arguments mkSliceVec {T}.
Arguments slice {T}.
Arguments capacity {T}.
Arguments slice_len {T}.
Arguments len {T}.
Arguments new_empty {T}.
Arguments slice_new {T}.
Arguments with_capacity {T}.
Arguments slicevec_new {T}.
Arguments reserve {T}.
Arguments push {T}.
Arguments push_all {T}.
Arguments split_off {T}.
Arguments is_empty {T}.
Arguments truncate {T}.
Arguments replace_nth {T}.
Arguments swap_remove {T}.
Arguments pop {T}.
Arguments append {T}.
Arguments clear {T}.
Arguments resize {T}.
Arguments call_n {T S}.
Arguments resize_with {T S}.
Arguments extend_from_slice {T}.
Arguments slice_clone {T}.
Arguments slicevec_clone {T}.

(** ** Backing store (common.rs) *)

Inductive ArenaBacking := MemoryMap | SystemAllocation.

(** [common::create_mapping]: the value [mmap] returned, as a [*mut u8]
    ([MAP_FAILED] is [-1]). *)
Definition create_mapping (mmap_result : Z) : Z := mmap_result mod usize_modulus.

(** [common::create_mapping_alloc]: the value [alloc] returned (null on
    failure). *)
Definition create_mapping_alloc (alloc_result : Z) : Z := alloc_result.

(** ** The reference-counted arena (rc.rs) *)

Module Rc.

(** [Arena(InnerRef, ArenaBacking)]: the [Inner] behind the [Rc], with the
    strong count of that [Rc]. *)
Record Arena := mkArena { inner : Cursor; strong_count : nat; backing : ArenaBacking }.

(** [Arena::init_capacity]: [os_result] is what the OS primitive returned. *)
Definition init_capacity (b : ArenaBacking) (cap : Z) (os_result : Z) : Arena :=
  let head := match b with
              | MemoryMap => create_mapping os_result
              | SystemAllocation => create_mapping_alloc os_result
              end in
  mkArena (mkCursor head 0 cap) 1 b.

(** [Arena::inner]: clones the [InnerRef], incrementing the strong count. *)
Definition handle (a : Arena) : Arena :=
  mkArena (inner a) (S (strong_count a)) (backing a).

(** Dropping an [InnerRef] (or a [Slice] holding one). *)
Definition drop_handle (a : Arena) : Arena :=
  mkArena (inner a) (Nat.pred (strong_count a)) (backing a).

(** [Arena::clear]:
    [assert!(1 == Rc::strong_count(&self.inner)); self.inner.pos.set(0);] *)
Definition clear (a : Arena) : option Arena :=
  _ <- assert (Nat.eqb 1 (strong_count a)) ;;
  Some (mkArena (set_position (inner a) 0) (strong_count a) (backing a)).


(** [InnerRef::allocate] (rc.rs): the code of [common::allocate_inner] on the
    shared [Inner]. *)
Definition allocate (l : Layout) (a : Arena) (count : Z) : option (Arena * Z) :=
  '(c', q) <- allocate_inner l (inner a) count ;;
  Some (mkArena c' (strong_count a) (backing a), q).

(** A client making the allocations [reqs] one after the other through the
    owner and collecting the pointers. *)
Fixpoint allocate_each (a : Arena) (reqs : list (Layout * Z)) : option (Arena * list Z) :=
  match reqs with
  | [] => Some (a, [])
  | (l, n) :: reqs' =>
      '(a1, q) <- allocate l a n ;;
      '(a2, qs) <- allocate_each a1 reqs' ;;
      Some (a2, q :: qs)
  end.
End Rc.

(** ** The generation-token arena (region.rs) *)

Module Region.

Inductive ArenaError := AlreadyLocked.

Inductive Result (A E : Type) := Ok (a : A) | Err (e : E).
Arguments Ok {A E}.
Arguments Err {A E}.

Record Arena := mkArena { cursor : Cursor; cap_backing : ArenaBacking; locked : bool }.

(** [ArenaToken<'a> { inner: &'a Arena }]: a token only refers to its arena. *)
Inductive ArenaToken := mkToken.

Definition init_capacity (b : ArenaBacking) (cap : Z) (os_result : Z) : Arena :=
  let head := match b with
              | MemoryMap => create_mapping os_result
              | SystemAllocation => create_mapping_alloc os_result
              end in
  mkArena (mkCursor head 0 cap) b false.

(** [Arena::generation_token] *)
Definition generation_token (a : Arena) : Arena * Result ArenaToken ArenaError :=
  if locked a then (a, Err AlreadyLocked)
  else (mkArena (cursor a) (cap_backing a) true, Ok mkToken).

(** [Drop for ArenaToken]: [pos.set(0); locked.set(false);] *)
Definition token_drop (a : Arena) : Arena :=
  mkArena (set_position (cursor a) 0) (cap_backing a) false.

(** The arena together with the number of [ArenaToken] values alive. *)
Record World := mkWorld { arena : Arena; live_tokens : nat }.

Inductive Op :=
| GenerationToken
| CloneToken                  (** [#[derive(Clone)]] on [ArenaToken] *)
| DropToken
| Allocate (l : Layout) (count : Z).  (** [ArenaToken::allocate] *)

(** One call.  [None] is a panic, or a call that needs a live token when
    there is none (such a program does not type-check in Rust). *)
Definition step (w : World) (o : Op) : option World :=
  match o with
  | GenerationToken =>
      match generation_token (arena w) with
      | (a', Ok _) => Some (mkWorld a' (S (live_tokens w)))
      | (a', Err _) => Some (mkWorld a' (live_tokens w))
      end
  | CloneToken =>
      if Nat.eqb (live_tokens w) 0 then None
      else Some (mkWorld (arena w) (S (live_tokens w)))
  | DropToken =>
      if Nat.eqb (live_tokens w) 0 then None
      else Some (mkWorld (token_drop (arena w)) (Nat.pred (live_tokens w)))
  | Allocate l n =>
      if Nat.eqb (live_tokens w) 0 then None
      else
        '(c', _) <- allocate_inner l (cursor (arena w)) n ;;
        Some (mkWorld (mkArena c' (cap_backing (arena w)) (locked (arena w)))
                      (live_tokens w))
  end.

Fixpoint run (w : World) (os : list Op) : option World :=
  match os with
  | [] => Some w
  | o :: os' => w' <- step w o ;; run w' os'
  end.

(** [CloneToken], the one operation that copies a token. *)
Definition is_clone (o : Op) : bool :=
  match o with
  | CloneToken => true
  | _ => false
  end.

End Region.

(** ** The iterators of the first version of the crate (lib.rs) *)

Module LibIter.

(** [SliceIter { ptr, end }] (and [SliceIterMut], whose methods have the
    same code): the references it yields are addresses. *)
Record SliceIter := mkIter { it_ptr : Z; it_end : Z }.

(** [Slice::iter]: [end = self.ptr.add(self.len)]. *)
Definition iter (l : Layout) (p n : Z) : SliceIter := mkIter p (p + n * size l).

(** [Iterator::next]: returns the iterator after the call and the item. *)
Definition next (l : Layout) (it : SliceIter) : SliceIter * option Z :=
  if it_ptr it =? it_end it then (it, None)
  else (mkIter (it_ptr it + size l) (it_end it), Some (it_ptr it)).

(** [DoubleEndedIterator::next_back]: [old = self.end;
    self.end = self.end.offset(-1); Some(&*old)]. *)
Definition next_back (l : Layout) (it : SliceIter) : SliceIter * option Z :=
  if it_ptr it =? it_end it then (it, None)
  else (mkIter (it_ptr it) (it_end it - size l), Some (it_end it)).

(** [Iterator::size_hint]: [(end as usize).wrapping_sub(ptr as usize)]
    divided by [size_of::<T>()] (a division by zero panics). *)
Definition size_hint (l : Layout) (it : SliceIter) : option (Z * option Z) :=
  let diff := (it_end it - it_ptr it) mod usize_modulus in
  if size l =? 0 then None
  else let n := diff / size l in Some (n, Some n).

(** A [for] loop over the iterator, for at most [fuel] calls of [next]. *)
Fixpoint collect (fuel : nat) (l : Layout) (it : SliceIter) : list Z * SliceIter :=
  match fuel with
  | O => ([], it)
  | S f =>
      match next l it with
      | (it', Some x) => let (xs, it'') := collect f l it' in (x :: xs, it'')
      | (it', None) => ([], it')
      end
  end.

End LibIter.

(** ** The growable sequence of the first version of the crate (lib.rs)

    Its [InnerRef::allocate] has the code of [common::allocate_inner], with
    [debug_assert!] for the two final range checks, which fire in a debug
    build as the [assert!]s do; its [InnerRef::allocate_or_extend] is the
    code of the rc.rs one (null pointer sent to [allocate], otherwise the
    in-place test of [allocate_or_extend_inner]). *)

Module LibVec.

(** [InnerRef::allocate] (lib.rs) *)
Definition allocate (l : Layout) (c : Cursor) (count : Z) : option (Cursor * Z) :=
  allocate_inner l c count.

(** [InnerRef::allocate_or_extend] (lib.rs) *)
Definition allocate_or_extend (l : Layout) (c : Cursor) (ptr old_count count : Z)
  : option (Cursor * Z) :=
  if ptr =? 0 then allocate l c count
  else let pos := position c in
       let next := head c + pos in
       let end_ := ptr + old_count * size l in
       if next =? end_ then
         d <- sub_chk count old_count ;;
         grow <- mul_chk d (size l) ;;
         p' <- add_chk pos grow ;;
         Some (set_position c p', ptr)
       else allocate l c count.

Section LibSliceVec.

Variable T : Type.

(** [SliceVec::new(inner, capacity)] (lib.rs) *)
Definition new (l : Layout) (c : Cursor) (capacity : Z) : option (Cursor * SliceVec T) :=
  if capacity =? 0 then Some (c, mkSliceVec (mkSlice (dangling l) []) 0)
  else '(c', p) <- allocate l c capacity ;; Some (c', mkSliceVec (mkSlice p []) capacity).

(** [SliceVec::reserve(size)] (lib.rs): [size] is the capacity wanted, not
    a number of additional elements. *)
Definition reserve (l : Layout) (c : Cursor) (v : SliceVec T) (size : Z)
  : option (Cursor * SliceVec T) :=
  if size <=? capacity v then Some (c, v)
  else
    let p := ptr (slice v) in
    let start := if 0 <? capacity v then capacity v else 4 in
    new_capacity <- grow_loop 65 start size ;;
    '(c', new_ptr) <- allocate_or_extend l c p (capacity v) new_capacity ;;
    let s := if negb (p =? 0) && negb (new_ptr =? p)
             then mkSlice new_ptr (elems (slice v)) else slice v in
    Some (c', mkSliceVec s new_capacity).

(** [SliceVec::push] (lib.rs) *)
Definition push (l : Layout) (c : Cursor) (v : SliceVec T) (elem : T)
  : option (Cursor * SliceVec T) :=
  '(c1, v1) <-
    (if len v =? capacity v then
       new_capacity <- (if capacity v =? 0 then Some 4 else mul_chk (capacity v) 2) ;;
       let p := ptr (slice v) in
       '(c', new_ptr) <- allocate_or_extend l c p (capacity v) new_capacity ;;
       let s := if negb (p =? 0) && negb (p =? new_ptr)
                then mkSlice new_ptr (elems (slice v)) else slice v in
       Some (c', mkSliceVec s new_capacity)
     else Some (c, v)) ;;
  _ <- add_chk (len v1) 1 ;;
  Some (c1, mkSliceVec (mkSlice (ptr (slice v1)) (elems (slice v1) ++ [elem]))
                       (capacity v1)).

Fixpoint push_all (l : Layout) (c : Cursor) (v : SliceVec T) (xs : list T)
  : option (Cursor * SliceVec T) :=
  match xs with
  | [] => Some (c, v)
  | x :: xs' => '(c', v') <- push l c v x ;; push_all l c' v' xs'
  end.

End LibSliceVec.

Arguments new {T}.
Arguments reserve {T}.
Arguments push {T}.
Arguments push_all {T}.

End LibVec.

Definition l_usize : Layout := mkLayout 8 8.
Definition c_small : Cursor := mkCursor 4096 0 64.
Definition c_1k : Cursor := mkCursor 4096 0 1024.
Definition v4 : SliceVec Z := mkSliceVec (mkSlice 4160 [10; 20; 30; 40]) 4.
Definition c_v4 : Cursor := mkCursor 4096 96 4096.

(** * Proofs *)

Ltac zbool :=
  repeat match goal with
  | H : (_ <? _) = true |- _ => apply Z.ltb_lt in H
  | H : (_ <? _) = false |- _ => apply Z.ltb_ge in H
  | H : (_ <=? _) = true |- _ => apply Z.leb_le in H
  | H : (_ <=? _) = false |- _ => apply Z.leb_gt in H
  | H : (_ =? _) = true |- _ => apply Z.eqb_eq in H
  | H : (_ =? _) = false |- _ => apply Z.eqb_neq in H
  end.

Ltac split_ifs :=
  repeat (match goal with
          | |- context [if ?b then _ else _] =>
              lazymatch type of b with
              | bool => let E := fresh "E" in destruct b eqn:E
              end
          end; cbv beta iota zeta); zbool.

(** Closes [Some (a, b) = Some (a', b')] from [a = a'] and [b = b'] by
    arithmetic. *)
Ltac close_pair :=
  match goal with
  | |- Some (set_position ?c ?x, ?b) = Some (set_position ?c ?x', ?b') =>
      replace x with x' by lia; replace b with b' by lia; reflexivity
  end.

Ltac unfold_chk := unfold bind, assert, sub_chk, add_chk, mul_chk in *.

(** The masked position is below the alignment. *)
Lemma land_mask_bounds (pos a : Z) :
  0 <= pos -> 1 <= a -> 0 <= Z.land pos (a - 1) <= a - 1.
Proof.
  intros Hp Ha; split.
  - apply Z.land_nonneg; lia.
  - rewrite <- (Z2N.id pos), <- (Z2N.id (a - 1)) by lia.
    rewrite <- N2Z.inj_land.
    pose proof (N.land_le_r (Z.to_N pos) (Z.to_N (a - 1))); lia.
Qed.

Lemma skip_of_bounds (l : Layout) (pos : Z) :
  0 <= Z.land pos (align l - 1) <= 64 -> 0 <= skip_of l pos <= 64.
Proof.
  unfold skip_of; intros H.
  destruct (64 - Z.land pos (align l - 1) =? align l); lia.
Qed.

Lemma some_pair_inj {A B : Type} (a a' : A) (b b' : B) :
  Some (a, b) = Some (a', b') -> a = a' /\ b = b'.
Proof. intros H; injection H; auto. Qed.

Lemma sub_chk_align (l : Layout) :
  wf_layout l -> sub_chk (align l) 1 = Some (align l - 1).
Proof.
  intros [_ Ha]; unfold sub_chk.
  destruct (1 <=? align l) eqn:E; zbool; [reflexivity | lia].
Qed.

(** Opens [allocate_inner] with the masked position as an opaque [m] and its
    bounds in the context. *)
Ltac open_alloc l c Hl Hc :=
  let Hb := fresh "Hb" in
  pose proof (land_mask_bounds (position c) (align l)
                ltac:(unfold wf_cursor in Hc; lia)
                ltac:(unfold wf_layout in Hl; lia)) as Hb;
  unfold allocate_inner, skip_of in *;
  rewrite (sub_chk_align l Hl) in *; cbn [bind] in *;
  generalize dependent (Z.land (position c) (align l - 1));
  intros; unfold wf_layout, wf_cursor in *; unfold_chk.

(** Shape of every completed allocation: the run starts [skip] bytes after
    the cursor and the cursor moves to its end. *)
Lemma allocate_inner_some (l : Layout) (c c' : Cursor) (count q : Z) :
  wf_layout l -> wf_cursor c ->
  allocate_inner l c count = Some (c', q) ->
  Z.land (position c) (align l - 1) <= 64 /\
  q = head c + position c + skip_of l (position c) /\
  c' = set_position c (position c + skip_of l (position c) + size l * count).
Proof.
  intros Hl Hc H.
  open_alloc l c Hl Hc.
  revert H; split_ifs; intros H; try discriminate.
  all: apply some_pair_inj in H as [<- <-]; repeat split; try lia; f_equal; lia.
Qed.

(** Every completed allocation leaves the cursor at or after the end of the
    run it returns: a block issued by the arena lies below the cursor. *)
Lemma allocate_inner_block_below (l : Layout) (c c' : Cursor) (count q : Z) :
  wf_layout l -> wf_cursor c ->
  allocate_inner l c count = Some (c', q) ->
  q + count * size l <= head c' + position c'.
Proof.
  intros Hl Hc H.
  destruct (allocate_inner_some l c c' count q Hl Hc H) as (_ & -> & ->).
  cbn; lia.
Qed.

(** ** C1: the bump allocation *)

(** C1 (amended).  When [p & (align - 1) <= 64], so that
    [skip = 64 - (p & (align - 1))] is a [usize], and with [skip] reset to [0]
    when it equals [align]: if [p + skip + size * count <= cap] and
    [p + skip < cap], [allocate] moves the cursor to exactly
    [p + skip + size * count] and returns [head + p + skip]. *)
Theorem allocate_inner_spec (l : Layout) (c : Cursor) (count : Z) :
  wf_layout l -> wf_cursor c -> 0 <= count < usize_modulus ->
  Z.land (position c) (align l - 1) <= 64 ->
  position c + skip_of l (position c) + size l * count <= cap c ->
  position c + skip_of l (position c) < cap c ->
  allocate_inner l c count =
  Some (set_position c (position c + skip_of l (position c) + size l * count),
        head c + position c + skip_of l (position c)).
Proof.
  intros Hl Hc Hn Hm Hfit Hin.
  open_alloc l c Hl Hc.
  split_ifs; try lia; try (exfalso; nia).
  all: close_pair.
Qed.

(** C1 (counterexample).  Two inputs where the claimed result is not
    produced although [p + skip + size * count <= cap]: an alignment of 128
    at position 65, where [64 - 65] underflows, and an empty run ([count = 0]
    of [u64]) from a fresh 64-byte arena, where [skip = 64] puts the returned
    pointer at [head + cap] and [assert!(ret < head + cap)] fails. *)
Lemma allocate_inner_claim_counterexample :
  (let l := mkLayout 128 128 in let c := mkCursor 4096 65 4096 in
   position c + skip_of l (position c) + size l * 1 <= cap c /\
   allocate_inner l c 1 = None) /\
  (let l := l_usize in let c := c_small in
   position c + skip_of l (position c) + size l * 0 <= cap c /\
   allocate_inner l c 0 = None).
Proof. split; cbn; split; (discriminate || reflexivity). Qed.

Lemma allocate_inner_spec_witness :
  wf_layout l_usize /\ wf_cursor (mkCursor 4096 0 1024) /\ 0 <= 2 < usize_modulus /\
  allocate_inner l_usize (mkCursor 4096 0 1024) 2 = Some (mkCursor 4096 80 1024, 4160).
Proof.
  unfold wf_layout, wf_cursor, usize_modulus; cbn.
  split; [lia|]. split; [lia|]. split; [lia|].
  apply (allocate_inner_spec l_usize (mkCursor 4096 0 1024) 2);
    unfold wf_layout, wf_cursor, usize_modulus; cbn; lia.
Defined.

(** ** C6: capacity exhaustion is a panic *)

(** C6 (amended).  [allocate] has no error result: it panics when
    [p & (align - 1) > 64] (the [skip] subtraction underflows) and when
    [p + skip + size * count > cap] (the overflow assertion); when
    [p & (align - 1) <= 64], [p + skip + size * count <= cap] and
    [p + skip < cap] it does not panic. *)
Theorem allocate_inner_panics (l : Layout) (c : Cursor) (count : Z) :
  wf_layout l -> wf_cursor c -> 0 <= count < usize_modulus ->
  (64 < Z.land (position c) (align l - 1) -> allocate_inner l c count = None) /\
  (Z.land (position c) (align l - 1) <= 64 ->
   cap c < position c + skip_of l (position c) + size l * count ->
   allocate_inner l c count = None) /\
  (Z.land (position c) (align l - 1) <= 64 ->
   position c + skip_of l (position c) + size l * count <= cap c ->
   position c + skip_of l (position c) < cap c ->
   allocate_inner l c count <> None).
Proof.
  intros Hl Hc Hn; split; [|split].
  - intros Hm; destruct (allocate_inner l c count) as [[c' q]|] eqn:E; [|reflexivity].
    destruct (allocate_inner_some l c c' count q Hl Hc E) as (H & _); lia.
  - intros Hm Hover; destruct (allocate_inner l c count) as [[c' q]|] eqn:E; [|reflexivity].
    revert E Hover; open_alloc l c Hl Hc.
    revert E; split_ifs; intros Halloc; try discriminate; nia.
  - intros Hm Hfit Hin.
    rewrite (allocate_inner_spec l c count Hl Hc Hn Hm Hfit Hin); discriminate.
Qed.

(** C6 (counterexample).  The empty run of [u64] in a fresh 64-byte arena:
    [p + skip + size * count = 64 <= 64], yet the call panics. *)
Lemma allocate_inner_panic_counterexample :
  position c_small + skip_of l_usize (position c_small) + size l_usize * 0 <= cap c_small /\
  allocate_inner l_usize c_small 0 = None.
Proof. cbn; split; [discriminate | reflexivity]. Qed.

Lemma allocate_inner_panics_witness :
  wf_layout l_usize /\ wf_cursor (mkCursor 4096 0 1024) /\ 0 <= 2 < usize_modulus /\
  allocate_inner l_usize (mkCursor 4096 0 1024) 2 <> None.
Proof.
  unfold wf_layout, wf_cursor, usize_modulus; cbn.
  split; [lia|]. split; [lia|]. split; [lia|].
  apply (allocate_inner_panics l_usize (mkCursor 4096 0 1024) 2);
    unfold wf_layout, wf_cursor, usize_modulus; cbn; lia.
Defined.

(** ** C2: growth in place *)

(** C2.  For a block [ptr] of [old_count <= new_count] elements issued by
    the arena (it ends at or below the cursor):
    - a null [ptr] is sent to [allocate(new_count)];
    - if [head + position = ptr + old_count * size], the cursor advances by
      [(new_count - old_count) * size] (when that stays a [usize]) and [ptr]
      itself is returned;
    - otherwise the call is [allocate(new_count)], and a pointer it returns is
      not [ptr]. *)
Theorem allocate_or_extend_spec (l : Layout) (c : Cursor) (p old_count new_count : Z) :
  wf_layout l -> wf_cursor c -> 0 <= old_count <= new_count ->
  p + old_count * size l <= head c + position c ->
  (p = 0 -> allocate_or_extend l c p old_count new_count = allocate_inner l c new_count) /\
  (p <> 0 -> head c + position c = p + old_count * size l ->
   position c + (new_count - old_count) * size l < usize_modulus ->
   allocate_or_extend l c p old_count new_count =
   Some (set_position c (position c + (new_count - old_count) * size l), p)) /\
  (p <> 0 -> head c + position c <> p + old_count * size l ->
   allocate_or_extend l c p old_count new_count = allocate_inner l c new_count /\
   (forall c' q, allocate_inner l c new_count = Some (c', q) -> q <> p)).
Proof.
  intros Hl Hc Hcount Hbelow; split; [|split].
  - intros ->; reflexivity.
  - intros Hp Heq Hfit.
    pose proof Hl as [Hs Ha]; unfold wf_cursor in Hc.
    unfold allocate_or_extend, allocate_or_extend_inner; unfold_chk.
    split_ifs; try lia; try (exfalso; nia).
    reflexivity.
  - intros Hp Hne; split.
    + unfold allocate_or_extend, allocate_or_extend_inner.
      split_ifs; try lia; reflexivity.
    + intros c' q Halloc Heqp.
      destruct (allocate_inner_some l c c' new_count q Hl Hc Halloc) as (Hm & Hq & _).
      pose proof (land_mask_bounds (position c) (align l)
                    ltac:(unfold wf_cursor in Hc; lia)
                    ltac:(unfold wf_layout in Hl; lia)).
      pose proof (skip_of_bounds l (position c) ltac:(lia)).
      destruct Hl as [Hs Ha]; nia.
Qed.

Lemma allocate_or_extend_spec_witness :
  wf_layout l_usize /\ wf_cursor (mkCursor 4096 80 1024) /\ 0 <= 2 <= 4 /\
  4160 + 2 * size l_usize <= head (mkCursor 4096 80 1024) + position (mkCursor 4096 80 1024) /\
  allocate_or_extend l_usize (mkCursor 4096 80 1024) 4160 2 4
  = Some (mkCursor 4096 96 1024, 4160).
Proof.
  unfold wf_layout, wf_cursor, usize_modulus; cbn.
  split; [lia|]. split; [lia|]. split; [lia|]. split; [lia|].
  destruct (allocate_or_extend_spec l_usize (mkCursor 4096 80 1024) 4160 2 4)
    as (_ & Hext & _);
    unfold wf_layout, wf_cursor, usize_modulus; cbn; try lia.
  apply Hext; cbn; lia.
Defined.

(** ** C10: empty sequences allocate nothing *)

(** C10.  [Slice::new(handle, 0)] and [SliceVec::with_capacity(handle, 0)]
    leave the cursor unchanged, use the dangling pointer, and have length [0]
    (and capacity [0]). *)
Theorem empty_sequences_no_allocation (T : Type) (default : T) (l : Layout) (c : Cursor) :
  slice_new default l c 0 = Some (c, mkSlice (dangling l) []) /\
  with_capacity (T := T) l c 0 = Some (c, mkSliceVec (mkSlice (dangling l) []) 0) /\
  slice_len (mkSlice (T := T) (dangling l) []) = 0.
Proof. repeat split. Qed.

(** ** C8: [split_off] *)

Definition v_123 : SliceVec Z := mkSliceVec (mkSlice 4160 [1; 2; 3]) 4.
Definition c_123 : Cursor := mkCursor 4096 96 4096.

(** C8 (the code at a failing input).  [split_off(1)] on [[1, 2, 3]]
    returns a new vector holding [[2, 3]], but [self] keeps its length [3]:
    [split_off] never sets [self.slice.len] to [at]. *)
Theorem split_off_keeps_self_length :
  exists c' ret,
    split_off l_usize c_123 v_123 1 = Some (c', v_123, ret) /\
    elems (slice ret) = [2; 3] /\ len v_123 = 3 /\ capacity v_123 = 4.
Proof. do 2 eexists; split; [reflexivity | repeat split]. Qed.

(** ** C3 and C9: the reference-counted arena *)

Definition rc_capacity : Z := 4096 * 2 ^ 16.

(** C3 (the code at a failing input).  With one handle taken by
    [arena.inner()], the strong count is [2] and [clear] panics on its
    [assert!]; with the owner alone it resets the cursor.  [clear] returns
    [()], there is no [Result]. *)
Theorem Rc_clear_with_live_handle_panics :
  let a := Rc.init_capacity SystemAllocation rc_capacity 1048576 in
  Rc.clear (Rc.handle a) = None /\
  Rc.clear (Rc.drop_handle (Rc.handle a)) = Some a.
Proof. split; reflexivity. Qed.

(** C9 (the code at a failing input).  When the backing store cannot be
    acquired ([alloc] returns null, [mmap] returns [MAP_FAILED]),
    [init_capacity] of either arena still returns an arena over that
    address: the failure is not reported. *)
Theorem init_capacity_ignores_failure :
  Rc.init_capacity SystemAllocation rc_capacity 0
  = Rc.mkArena (mkCursor 0 0 rc_capacity) 1 SystemAllocation /\
  Rc.init_capacity MemoryMap rc_capacity (-1)
  = Rc.mkArena (mkCursor (usize_modulus - 1) 0 rc_capacity) 1 MemoryMap /\
  Region.init_capacity SystemAllocation rc_capacity 0
  = Region.mkArena (mkCursor 0 0 rc_capacity) SystemAllocation false.
Proof. repeat split. Qed.

(** ** C4 and C5: the generation-token arena *)

Module RegionProofs.
Import Region.

Definition w0 : World :=
  mkWorld (init_capacity SystemAllocation rc_capacity 1048576) 0.

(** [generation_token] refuses exactly when the lock flag is set, and a
    token it hands out sets the flag. *)
Lemma generation_token_locked (a : Arena) :
  (snd (generation_token a) = Err AlreadyLocked <-> locked a = true) /\
  (forall a' t, generation_token a = (a', Ok t) -> locked a' = true /\ cursor a' = cursor a).
Proof.
  unfold generation_token; destruct (locked a) eqn:E; cbn; split.
  - split; reflexivity.
  - intros a' t H; discriminate.
  - split; intros H; discriminate.
  - intros a' t H; inversion H; subst; split; reflexivity.
Qed.

(** Dropping a token resets the cursor and clears the lock together. *)
Lemma token_drop_resets (a : Arena) :
  position (cursor (token_drop a)) = 0 /\ locked (token_drop a) = false.
Proof. split; reflexivity. Qed.

(** C4 (the code at a failing input).  [generation_token] answers
    [AlreadyLocked] exactly when locked, but the token is [Clone]: after
    [generation_token()] and [token.clone()] two tokens are live. *)
Theorem two_live_tokens :
  exists w, run w0 [GenerationToken; CloneToken] = Some w /\
            live_tokens w = 2%nat /\ locked (arena w) = true /\
            snd (generation_token (arena w)) = Err AlreadyLocked.
Proof. eexists; repeat split. Qed.

(** C5 (the code at a failing input).  Take a token, clone it, drop the
    original (the cursor is reset and the lock cleared), allocate one [u64]
    through the clone: [generation_token] then succeeds on an arena whose
    cursor is at [72], not [0]. *)
Theorem generation_after_clone_not_reclaimed :
  exists w, run w0 [GenerationToken; CloneToken; DropToken; Allocate l_usize 1] = Some w /\
            live_tokens w = 1%nat /\ locked (arena w) = false /\
            position (cursor (arena w)) = 72 /\
            snd (generation_token (arena w)) = Ok mkToken.
Proof. eexists; repeat split. Qed.

End RegionProofs.

(** ** C7: the growth policy of [reserve] *)

Lemma bind_some {A B : Type} (m : option A) (k : A -> option B) (b : B) :
  bind m k = Some b -> exists a, m = Some a /\ k a = Some b.
Proof. destruct m as [a|]; cbn; [intros H; exists a; auto | discriminate]. Qed.

(** The doubling loop ends on the first [start * 2 ^ k] that reaches
    [size]. *)
Lemma grow_loop_spec (fuel : nat) :
  forall (n size r : Z), 0 < n -> grow_loop fuel n size = Some r ->
  exists k : nat, r = n * 2 ^ Z.of_nat k /\ size <= r /\
                  (forall j : nat, (j < k)%nat -> n * 2 ^ Z.of_nat j < size).
Proof.
  induction fuel as [|f IH]; intros n size r Hn H; cbn in H; [discriminate|].
  destruct (n <? size) eqn:E; zbool.
  - apply bind_some in H as (n2 & Hm & Hrec).
    unfold mul_chk in Hm; destruct (n * 2 <? usize_modulus); [|discriminate].
    injection Hm as <-.
    destruct (IH (n * 2) size r ltac:(lia) Hrec) as (k & Hr & Hle & Hmin).
    exists (S k); split; [|split]; auto.
    + rewrite Hr, Nat2Z.inj_succ, Z.pow_succ_r by lia; ring.
    + intros [|j] Hj; [cbn; lia|].
      rewrite Nat2Z.inj_succ, Z.pow_succ_r by lia.
      specialize (Hmin j ltac:(lia)); lia.
  - injection H as <-; exists O; cbn; split; [ring|split; [lia|]].
    intros j Hj; lia.
Qed.

(** What a completed [reserve] does to the vector: the elements are kept,
    and the capacity is unchanged or is the result of the doubling loop. *)
Lemma reserve_some (T : Type) (l : Layout) (c c' : Cursor) (v v' : SliceVec T) (a : Z) :
  reserve l c v a = Some (c', v') ->
  elems (slice v') = elems (slice v) /\
  (len v + a <= capacity v -> capacity v' = capacity v) /\
  (capacity v < len v + a ->
   grow_loop 65 (if 0 <? capacity v then capacity v else 4) (len v + a)
   = Some (capacity v')).
Proof.
  unfold reserve; intros H.
  apply bind_some in H as (sz & Hsz & H).
  unfold add_chk in Hsz; destruct (len v + a <? usize_modulus); [|discriminate].
  injection Hsz as <-.
  destruct (len v + a <=? capacity v) eqn:E; zbool.
  - injection H as _ <-; repeat split; auto; lia.
  - apply bind_some in H as (nc & Hgrow & H).
    apply bind_some in H as ([c2 np] & _ & H).
    injection H as _ <-; cbn [slice capacity].
    split; [destruct (negb (ptr (slice v) =? np)); reflexivity|].
    split; [intros; lia | intros _; exact Hgrow].
Qed.

(** One [push]: the element is appended, and the capacity goes from [0] to
    [4], or doubles, when the vector was full. *)
Lemma push_some (T : Type) (l : Layout) (c c' : Cursor) (v v' : SliceVec T) (x : T) :
  0 <= capacity v -> len v <= capacity v ->
  push l c v x = Some (c', v') ->
  elems (slice v') = elems (slice v) ++ [x] /\
  capacity v' = (if len v =? capacity v
                 then (if capacity v =? 0 then 4 else 2 * capacity v)
                 else capacity v).
Proof.
  intros Hc0 Hlc H; unfold push in H.
  apply bind_some in H as ([c1 v1] & H1 & H).
  apply bind_some in H as (_ & _ & H).
  injection H as _ <-; cbn [slice elems capacity].
  destruct (len v =? capacity v) eqn:E; zbool.
  - apply bind_some in H1 as (nc & Hnc & H1).
    apply bind_some in H1 as (d & Hd & H1).
    destruct (reserve_some T l c c1 v v1 d H1) as (Hel & _ & Hgrow).
    rewrite Hel; split; [reflexivity|].
    assert (Hnc' : nc = if capacity v =? 0 then 4 else 2 * capacity v).
    { destruct (capacity v =? 0) eqn:E0; zbool.
      - injection Hnc as <-; reflexivity.
      - unfold mul_chk in Hnc; destruct (capacity v * 2 <? usize_modulus); [|discriminate].
        injection Hnc as <-; lia. }
    unfold sub_chk in Hd; destruct (capacity v <=? nc) eqn:Ed; [|discriminate].
    injection Hd as <-.
    destruct (capacity v =? 0) eqn:E0; zbool.
    + specialize (Hgrow ltac:(lia)).
      destruct (0 <? capacity v) eqn:E1; zbool; [lia|].
      destruct (grow_loop_spec 65 4 (len v + (nc - capacity v)) (capacity v1)
                  ltac:(lia) Hgrow) as (k & Hr & Hle & Hmin).
      destruct k as [|k]; [cbn in Hr; lia|].
      specialize (Hmin O ltac:(lia)); cbn in Hmin; lia.
    + specialize (Hgrow ltac:(lia)).
      destruct (0 <? capacity v) eqn:E1; zbool; [|lia].
      destruct (grow_loop_spec 65 (capacity v) (len v + (nc - capacity v)) (capacity v1)
                  ltac:(lia) Hgrow) as (k & Hr & Hle & Hmin).
      destruct k as [|[|k]].
      * cbn in Hr; lia.
      * cbn in Hr; lia.
      * specialize (Hmin 1%nat ltac:(lia)); cbn in Hmin; lia.
  - injection H1 as _ <-; split; reflexivity.
Qed.

(** [push_some] on a vector given by its elements and capacity. *)
Lemma push_from (T : Type) (l : Layout) (c c' : Cursor) (v v' : SliceVec T) (x : T)
  (es : list T) (k : Z) :
  elems (slice v) = es -> capacity v = k -> 0 <= Z.of_nat (length es) <= k ->
  push l c v x = Some (c', v') ->
  elems (slice v') = es ++ [x] /\
  capacity v' = (if Z.of_nat (length es) =? k then (if k =? 0 then 4 else 2 * k) else k).
Proof.
  intros He Hk Hb H.
  assert (Hlen : len v = Z.of_nat (length es)) by (unfold len, slice_len; rewrite He; reflexivity).
  destruct (push_some T l c c' v v' x ltac:(lia) ltac:(lia) H) as (E & K).
  rewrite E, K, He, Hlen, Hk; split; reflexivity.
Qed.

(** C7 (as amended: the growable sequence of common.rs, used by the rc and
    region arenas).  A completed [reserve(additional)] leaves
    [capacity >= len + additional]; the capacity is unchanged when it
    sufficed, and is otherwise the first of [start, 2 * start, 4 * start, ...]
    that reaches [len + additional], with [start = capacity] when the
    capacity is positive and [start = 4] otherwise (capacity [0]).  Five completed pushes on an empty
    vector of capacity [0] give length [5] and capacity [8]. *)
Theorem reserve_growth_policy (T : Type) (l : Layout)
  (c c' : Cursor) (v v' : SliceVec T) (additional : Z)
  (c0 c5 : Cursor) (v0 v5 : SliceVec T) (x1 x2 x3 x4 x5 : T) :
  reserve l c v additional = Some (c', v') ->
  elems (slice v0) = [] -> capacity v0 = 0 ->
  push_all l c0 v0 [x1; x2; x3; x4; x5] = Some (c5, v5) ->
  len v + additional <= capacity v' /\
  (len v + additional <= capacity v -> capacity v' = capacity v) /\
  (capacity v < len v + additional ->
   exists k : nat,
     capacity v' = (if 0 <? capacity v then capacity v else 4) * 2 ^ Z.of_nat k /\
     (forall j : nat, (j < k)%nat ->
        (if 0 <? capacity v then capacity v else 4) * 2 ^ Z.of_nat j < len v + additional)) /\
  len v5 = 5 /\ capacity v5 = 8.
Proof.
  intros Hres Hel0 Hcap0 Hpush.
  destruct (reserve_some T l c c' v v' additional Hres) as (_ & Hsame & Hgrow).
  split; [|split; [exact Hsame|split]].
  - destruct (Z_le_gt_dec (len v + additional) (capacity v)) as [Hle|Hgt].
    + rewrite (Hsame Hle); exact Hle.
    + specialize (Hgrow ltac:(lia)).
      assert (Hpos : 0 < (if 0 <? capacity v then capacity v else 4))
        by (destruct (0 <? capacity v) eqn:E; zbool; lia).
      destruct (grow_loop_spec 65 _ _ _ Hpos Hgrow) as (k & _ & Hle & _); exact Hle.
  - intros Hlt; specialize (Hgrow Hlt).
    assert (Hpos : 0 < (if 0 <? capacity v then capacity v else 4))
      by (destruct (0 <? capacity v) eqn:E; zbool; lia).
    destruct (grow_loop_spec 65 _ _ _ Hpos Hgrow) as (k & Hr & _ & Hmin).
    exists k; split; [exact Hr | exact Hmin].
  - cbn [push_all] in Hpush.
    apply bind_some in Hpush as ([c1 v1] & P1 & Hpush).
    apply bind_some in Hpush as ([c2 v2] & P2 & Hpush).
    apply bind_some in Hpush as ([c3 v3] & P3 & Hpush).
    apply bind_some in Hpush as ([c4 v4] & P4 & Hpush).
    apply bind_some in Hpush as ([c5' v5'] & P5 & Hpush).
    injection Hpush as <- <-.
    destruct (push_from T l c0 c1 v0 v1 x1 [] 0 Hel0 Hcap0 ltac:(cbn; lia) P1) as (E1 & K1).
    cbn in K1.
    destruct (push_from T l c1 c2 v1 v2 x2 _ _ E1 K1 ltac:(cbn; lia) P2) as (E2 & K2).
    cbn in K2.
    destruct (push_from T l c2 c3 v2 v3 x3 _ _ E2 K2 ltac:(cbn; lia) P3) as (E3 & K3).
    cbn in K3.
    destruct (push_from T l c3 c4 v3 v4 x4 _ _ E3 K3 ltac:(cbn; lia) P4) as (E4 & K4).
    cbn in K4.
    destruct (push_from T l c4 c5' v4 v5' x5 _ _ E4 K4 ltac:(cbn; lia) P5) as (E5 & K5).
    cbn in K5.
    unfold len, slice_len; rewrite E5, K5; split; reflexivity.
Qed.

Lemma reserve_growth_policy_witness :
  reserve l_usize (mkCursor 4096 0 4096) (mkSliceVec (mkSlice 8 [1; 2; 3; 4; 5]) 8) 9
  = Some (mkCursor 4096 192 4096, mkSliceVec (mkSlice 4160 [1; 2; 3; 4; 5]) 16) /\
  elems (slice (mkSliceVec (T := Z) (mkSlice 8 []) 0)) = [] /\
  capacity (mkSliceVec (T := Z) (mkSlice 8 []) 0) = 0 /\
  push_all l_usize (mkCursor 4096 0 4096) (mkSliceVec (mkSlice 8 []) 0) [1; 2; 3; 4; 5]
  = Some (mkCursor 4096 128 4096, mkSliceVec (mkSlice 4160 [1; 2; 3; 4; 5]) 8) /\
  capacity (mkSliceVec (mkSlice 4160 [1; 2; 3; 4; 5]) 16) = 16.
Proof.
  split; [vm_compute; reflexivity|].
  split; [reflexivity|]. split; [reflexivity|]. split; [vm_compute; reflexivity|].
  destruct (reserve_growth_policy Z l_usize (mkCursor 4096 0 4096) (mkCursor 4096 192 4096)
              (mkSliceVec (mkSlice 8 [1; 2; 3; 4; 5]) 8)
              (mkSliceVec (mkSlice 4160 [1; 2; 3; 4; 5]) 16) 9
              (mkCursor 4096 0 4096) (mkCursor 4096 128 4096)
              (mkSliceVec (mkSlice 8 []) 0)
              (mkSliceVec (mkSlice 4160 [1; 2; 3; 4; 5]) 8) 1 2 3 4 5)
    as (Hge & _);
    [vm_compute; reflexivity | reflexivity | reflexivity | vm_compute; reflexivity |].
  reflexivity.
Defined.

(** C7 fails for the growable sequence of lib.rs: its [reserve(size)]
    reads its argument as the capacity wanted.  Five pushes on
    [SliceVec::new(inner, 0)] give length [5] and capacity [8], and then
    [reserve(6)] returns at once, leaving capacity [8 < 5 + 6]. *)
Lemma reserve_claim_counterexample :
  LibVec.new l_usize (mkCursor 4096 0 4096) 0
  = Some (mkCursor 4096 0 4096, mkSliceVec (T := Z) (mkSlice 8 []) 0) /\
  LibVec.push_all l_usize (mkCursor 4096 0 4096) (mkSliceVec (mkSlice 8 []) 0) [0; 1; 2; 3; 4]
  = Some (mkCursor 4096 128 4096, mkSliceVec (mkSlice 4160 [0; 1; 2; 3; 4]) 8) /\
  LibVec.reserve l_usize (mkCursor 4096 128 4096) (mkSliceVec (mkSlice 4160 [0; 1; 2; 3; 4]) 8) 6
  = Some (mkCursor 4096 128 4096, mkSliceVec (mkSlice 4160 [0; 1; 2; 3; 4]) 8) /\
  capacity (mkSliceVec (T := Z) (mkSlice 4160 [0; 1; 2; 3; 4]) 8)
  < len (mkSliceVec (T := Z) (mkSlice 4160 [0; 1; 2; 3; 4]) 8) + 6.
Proof.
  split; [reflexivity|]. split; [vm_compute; reflexivity|].
  split; [vm_compute; reflexivity|]. vm_compute; reflexivity.
Qed.

(** * Further properties of the code *)

(** ** The bump allocator *)

(** Every completed allocation passed the three checks of [allocate_inner]
    and has the shape computed by [skip_of]. *)
Lemma allocate_inner_facts (l : Layout) (c c' : Cursor) (count q : Z) :
  wf_layout l -> wf_cursor c ->
  allocate_inner l c count = Some (c', q) ->
  Z.land (position c) (align l - 1) <= 64 /\
  position c + skip_of l (position c) + size l * count <= cap c /\
  position c + skip_of l (position c) < cap c /\
  0 <= skip_of l (position c) /\
  q = head c + position c + skip_of l (position c) /\
  c' = set_position c (position c + skip_of l (position c) + size l * count).
Proof.
  intros Hl Hc H.
  open_alloc l c Hl Hc.
  revert H; split_ifs; intros H; try discriminate.
  all: apply some_pair_inj in H as [<- <-]; repeat split; try lia; f_equal; lia.
Qed.

(** X1.  A completed allocation of [count] objects returns a block
    [q .. q + count * size] inside the buffer [head .. head + cap], the
    cursor moves to the end of the block (or, for an empty run, past the
    padding) and stays a valid cursor of the same buffer. *)
Theorem allocate_inner_in_bounds (l : Layout) (c c' : Cursor) (count q : Z) :
  wf_layout l -> wf_cursor c -> 0 <= count ->
  allocate_inner l c count = Some (c', q) ->
  head c <= q < head c + cap c /\
  q + count * size l = head c' + position c' /\
  position c' <= cap c' /\
  head c' = head c /\ cap c' = cap c /\ wf_cursor c'.
Proof.
  intros Hl Hc Hn H.
  destruct (allocate_inner_facts l c c' count q Hl Hc H)
    as (_ & Hfit & Hin & Hskip & -> & ->).
  pose proof Hl as [Hs _]; pose proof Hc as (Hh & Hcap & Hend & Hp).
  unfold wf_cursor, set_position; cbn [head position cap]; repeat split; nia.
Qed.

(** X2.  Two allocations in a row return blocks that do not overlap: the
    second starts at or after the end of the first, and ends inside the
    buffer. *)
Theorem allocate_inner_successive_disjoint (l1 l2 : Layout) (c c1 c2 : Cursor)
  (n1 n2 q1 q2 : Z) :
  wf_layout l1 -> wf_layout l2 -> wf_cursor c -> 0 <= n1 -> 0 <= n2 ->
  allocate_inner l1 c n1 = Some (c1, q1) ->
  allocate_inner l2 c1 n2 = Some (c2, q2) ->
  q1 + n1 * size l1 <= q2 /\ q2 + n2 * size l2 <= head c + cap c.
Proof.
  intros Hl1 Hl2 Hc Hn1 Hn2 H1 H2.
  destruct (allocate_inner_in_bounds l1 c c1 n1 q1 Hl1 Hc Hn1 H1)
    as (_ & E1 & _ & Hh1 & Hc1 & Hwf1).
  destruct (allocate_inner_in_bounds l2 c1 c2 n2 q2 Hl2 Hwf1 Hn2 H2)
    as (_ & E2 & Hle2 & Hh2 & Hc2 & _).
  destruct (allocate_inner_facts l2 c1 c2 n2 q2 Hl2 Hwf1 H2) as (_ & _ & _ & Hs & Hq & _).
  rewrite Hh2, Hc2, Hh1, Hc1 in *; lia.
Qed.

Lemma land_pow2_mod (pos : Z) (k : nat) :
  0 <= pos -> Z.land pos (2 ^ Z.of_nat k - 1) = pos mod 2 ^ Z.of_nat k.
Proof.
  intros Hp.
  replace (2 ^ Z.of_nat k - 1) with (Z.ones (Z.of_nat k)) by (rewrite Z.ones_equiv; lia).
  apply Z.land_ones; lia.
Qed.

(** X3.  For an alignment [2 ^ k] with [k <= 6] (at most 64), the offset of
    a returned block from the head of the buffer is a multiple of the
    alignment; with a head aligned to it, so is the pointer. *)
Theorem allocate_inner_aligned (l : Layout) (c c' : Cursor) (count q : Z) (k : nat) :
  wf_layout l -> wf_cursor c -> align l = 2 ^ Z.of_nat k -> (k <= 6)%nat ->
  allocate_inner l c count = Some (c', q) ->
  (q - head c) mod align l = 0 /\
  (head c mod align l = 0 -> q mod align l = 0).
Proof.
  intros Hl Hc Ha Hk H.
  destruct (allocate_inner_facts l c c' count q Hl Hc H) as (_ & _ & _ & _ & Hq & _).
  assert (Hoff : (position c + skip_of l (position c)) mod align l = 0).
  { pose proof Hc as (_ & _ & _ & Hp).
    assert (Hapos : 0 < align l) by (rewrite Ha; apply Z.pow_pos_nonneg; lia).
    assert (H64 : 64 = align l * 2 ^ (6 - Z.of_nat k)).
    { rewrite Ha, <- Z.pow_add_r by lia.
      replace (Z.of_nat k + (6 - Z.of_nat k)) with 6 by lia; reflexivity. }
    unfold skip_of; rewrite Ha, land_pow2_mod by lia; rewrite <- Ha.
    pose proof (Z.div_mod (position c) (align l) ltac:(lia)) as Hdm.
    pose proof (Z.mod_pos_bound (position c) (align l) Hapos) as Hb.
    set (r := position c mod align l) in *.
    set (qq := position c / align l) in *.
    destruct (64 - r =? align l) eqn:E; zbool.
    - (* [r = 64 - align], a multiple of [align] below it: [r = 0]. *)
      assert (Hr : r = 0).
      { assert (Hm : 0 < 2 ^ (6 - Z.of_nat k)) by (apply Z.pow_pos_nonneg; lia).
        nia. }
      rewrite Z.add_0_r, Hdm, Hr, Z.add_0_r, Z.mul_comm; apply Z_mod_mult.
    - replace (position c + (64 - r)) with ((qq + 2 ^ (6 - Z.of_nat k)) * align l) by lia.
      apply Z_mod_mult. }
  rewrite Hq; split.
  - replace (head c + position c + skip_of l (position c) - head c)
      with (position c + skip_of l (position c)) by lia; exact Hoff.
  - intros Hh.
    rewrite <- Z.add_assoc, Z.add_mod by lia; rewrite Hh, Hoff; reflexivity.
Qed.


Lemma allocate_inner_in_bounds_witness :
  wf_layout l_usize /\ wf_cursor c_1k /\ 0 <= 2 /\
  allocate_inner l_usize c_1k 2 = Some (mkCursor 4096 80 1024, 4160) /\
  4096 <= 4160 < 4096 + 1024.
Proof.
  assert (Hl : wf_layout l_usize) by (unfold wf_layout, usize_modulus; cbn; lia).
  assert (Hc : wf_cursor c_1k) by (unfold wf_cursor, usize_modulus; cbn; lia).
  assert (Ha : allocate_inner l_usize c_1k 2 = Some (mkCursor 4096 80 1024, 4160))
    by reflexivity.
  split; [exact Hl|]. split; [exact Hc|]. split; [lia|]. split; [exact Ha|].
  destruct (allocate_inner_in_bounds l_usize c_1k (mkCursor 4096 80 1024) 2 4160
              Hl Hc ltac:(lia) Ha) as (Hb & _).
  exact Hb.
Defined.

Lemma allocate_inner_successive_disjoint_witness :
  wf_layout l_usize /\ wf_layout (mkLayout 1 1) /\ wf_cursor c_1k /\
  allocate_inner l_usize c_1k 2 = Some (mkCursor 4096 80 1024, 4160) /\
  allocate_inner (mkLayout 1 1) (mkCursor 4096 80 1024) 3
  = Some (mkCursor 4096 147 1024, 4240) /\
  4160 + 2 * 8 <= 4240.
Proof.
  assert (Hl : wf_layout l_usize) by (unfold wf_layout, usize_modulus; cbn; lia).
  assert (Hl' : wf_layout (mkLayout 1 1)) by (unfold wf_layout, usize_modulus; cbn; lia).
  assert (Hc : wf_cursor c_1k) by (unfold wf_cursor, usize_modulus; cbn; lia).
  assert (H1 : allocate_inner l_usize c_1k 2 = Some (mkCursor 4096 80 1024, 4160))
    by reflexivity.
  assert (H2 : allocate_inner (mkLayout 1 1) (mkCursor 4096 80 1024) 3
               = Some (mkCursor 4096 147 1024, 4240)) by reflexivity.
  do 5 (split; [assumption|]).
  destruct (allocate_inner_successive_disjoint l_usize (mkLayout 1 1) c_1k
              (mkCursor 4096 80 1024) (mkCursor 4096 147 1024) 2 3 4160 4240
              Hl Hl' Hc ltac:(lia) ltac:(lia) H1 H2) as (Hd & _).
  exact Hd.
Defined.

Lemma allocate_inner_aligned_witness :
  wf_layout (mkLayout 4 4) /\ wf_cursor (mkCursor 4096 70 1024) /\
  align (mkLayout 4 4) = 2 ^ Z.of_nat 2 /\
  allocate_inner (mkLayout 4 4) (mkCursor 4096 70 1024) 1
  = Some (mkCursor 4096 136 1024, 4228) /\
  4228 mod 4 = 0.
Proof.
  assert (Hl : wf_layout (mkLayout 4 4)) by (unfold wf_layout, usize_modulus; cbn; lia).
  assert (Hc : wf_cursor (mkCursor 4096 70 1024)) by (unfold wf_cursor, usize_modulus; cbn; lia).
  assert (Ha : align (mkLayout 4 4) = 2 ^ Z.of_nat 2) by reflexivity.
  assert (H : allocate_inner (mkLayout 4 4) (mkCursor 4096 70 1024) 1
              = Some (mkCursor 4096 136 1024, 4228)) by reflexivity.
  do 4 (split; [assumption|]).
  destruct (allocate_inner_aligned (mkLayout 4 4) (mkCursor 4096 70 1024)
              (mkCursor 4096 136 1024) 1 4228 2 Hl Hc Ha ltac:(lia) H) as (_ & Hal).
  apply Hal; reflexivity.
Defined.

(** ** The operations of [SliceVec] *)

(** X4.  [truncate(n)] keeps the first [n] elements (all of them when
    [n >= len]), keeps the pointer and the capacity, and two truncations
    are the truncation to the smaller length. *)
Theorem truncate_spec (T : Type) (v : SliceVec T) (n m : Z) :
  0 <= n -> 0 <= m ->
  elems (slice (truncate v n)) = firstn (Z.to_nat n) (elems (slice v)) /\
  ptr (slice (truncate v n)) = ptr (slice v) /\
  capacity (truncate v n) = capacity v /\
  truncate (truncate v n) m = truncate v (Z.min n m).
Proof.
  intros Hn Hm.
  unfold truncate, len, slice_len.
  destruct (n <? Z.of_nat (length (elems (slice v)))) eqn:E1; zbool; cbn [slice elems ptr capacity].
  - repeat split.
    rewrite length_firstn.
    destruct (m <? Z.of_nat (Init.Nat.min (Z.to_nat n) (length (elems (slice v))))) eqn:E2;
      zbool; cbn [slice elems ptr capacity];
      destruct (Z.min n m <? Z.of_nat (length (elems (slice v)))) eqn:E3; zbool; try lia.
    + rewrite firstn_firstn.
      replace (Init.Nat.min (Z.to_nat m) (Z.to_nat n)) with (Z.to_nat (Z.min n m)) by lia.
      reflexivity.
    + replace (Z.min n m) with n by lia; reflexivity.
  - repeat split.
    + rewrite firstn_all2 by lia; reflexivity.
    + destruct (m <? Z.of_nat (length (elems (slice v)))) eqn:E2; zbool;
        destruct (Z.min n m <? Z.of_nat (length (elems (slice v)))) eqn:E3; zbool; try lia.
      * replace (Z.min n m) with m by lia; reflexivity.
      * reflexivity.
Qed.

Lemma replace_nth_oob (T : Type) (l : list T) (i : nat) (y : T) :
  (length l <= i)%nat -> replace_nth l i y = l.
Proof.
  revert i; induction l as [|z l IH]; intros [|i] Hi; cbn in *; try reflexivity; try lia.
  rewrite IH by lia; reflexivity.
Qed.

Lemma firstn_replace_nth (T : Type) (l : list T) (n i : nat) (y : T) :
  firstn n (replace_nth l i y) = replace_nth (firstn n l) i y.
Proof.
  revert n i; induction l as [|z l IH]; intros [|n] [|i]; cbn; try reflexivity.
  rewrite IH; reflexivity.
Qed.

Lemma replace_nth_length (T : Type) (l : list T) (i : nat) (y : T) :
  length (replace_nth l i y) = length l.
Proof.
  revert i; induction l as [|z l IH]; intros [|i]; cbn; try reflexivity.
  rewrite IH; reflexivity.
Qed.

Lemma nth_error_replace_nth_eq (T : Type) (l : list T) (i : nat) (y : T) :
  (i < length l)%nat -> nth_error (replace_nth l i y) i = Some y.
Proof.
  revert i; induction l as [|z l IH]; intros [|i] Hi; cbn in *; try lia; try reflexivity.
  apply IH; lia.
Qed.

Lemma nth_error_replace_nth_neq (T : Type) (l : list T) (i j : nat) (y : T) :
  j <> i -> nth_error (replace_nth l i y) j = nth_error l j.
Proof.
  revert i j; induction l as [|z l IH]; intros [|i] [|j] Hij; cbn; try reflexivity; try lia.
  apply IH; lia.
Qed.

Lemma replace_nth_perm (T : Type) (l : list T) (i : nat) (x y : T) :
  nth_error l i = Some x -> Permutation (x :: replace_nth l i y) (y :: l).
Proof.
  revert i; induction l as [|z l IH]; intros [|i] H; cbn in H; try discriminate.
  - injection H as <-; cbn; apply perm_swap.
  - cbn.
    apply perm_trans with (z :: x :: replace_nth l i y); [apply perm_swap|].
    apply perm_trans with (z :: y :: l); [apply perm_skip, IH, H | apply perm_swap].
Qed.

(** X5.  [swap_remove(index)] panics when [index >= len]; otherwise it
    returns the element at [index], the length drops by one, the removed
    element and the remaining ones are a permutation of the old elements,
    the last element fills the hole, every other position is unchanged, and
    the pointer and capacity are kept. *)
Theorem swap_remove_spec (T : Type) (v : SliceVec T) (i : Z) :
  0 <= i ->
  (len v <= i -> swap_remove v i = None) /\
  (i < len v ->
   exists v' x,
     swap_remove v i = Some (v', x) /\
     nth_error (elems (slice v)) (Z.to_nat i) = Some x /\
     len v' = len v - 1 /\
     Permutation (x :: elems (slice v')) (elems (slice v)) /\
     (i < len v - 1 ->
      nth_error (elems (slice v')) (Z.to_nat i)
      = nth_error (elems (slice v)) (Z.to_nat (len v - 1))) /\
     (forall j : nat, j <> Z.to_nat i -> (Z.of_nat j < len v - 1) ->
      nth_error (elems (slice v')) j = nth_error (elems (slice v)) j) /\
     ptr (slice v') = ptr (slice v) /\ capacity v' = capacity v).
Proof.
  intros Hi; unfold len, slice_len, swap_remove.
  destruct v as [[p es] k]; cbn [slice elems ptr capacity].
  split.
  - intros Hle.
    rewrite (proj2 (nth_error_None es (Z.to_nat i)) ltac:(lia)); reflexivity.
  - intros Hlt.
    destruct (exists_last (l := es) ltac:(intros ->; cbn in Hlt; lia)) as (pre & a & ->).
    rewrite length_app in *; cbn [length] in *.
    replace (Nat.pred (length pre + 1)) with (length pre) by lia.
    rewrite (nth_error_app2 pre [a] (n := length pre)) by lia.
    rewrite Nat.sub_diag; cbn [nth_error].
    destruct (nth_error (pre ++ [a]) (Z.to_nat i)) as [x|] eqn:Ex;
      [| apply nth_error_None in Ex; rewrite length_app in Ex; cbn in Ex; lia].
    cbn [bind].
    rewrite firstn_replace_nth, firstn_app, firstn_all, Nat.sub_diag, firstn_O, app_nil_r.
    exists (mkSliceVec (mkSlice p (replace_nth pre (Z.to_nat i) a)) k), x.
    cbn [slice elems ptr capacity].
    split; [reflexivity|]. split; [reflexivity|].
    rewrite replace_nth_length.
    split; [lia|]. split; [|split; [|split]].
    + destruct (Nat.lt_ge_cases (Z.to_nat i) (length pre)) as [Hin|Hout].
      * rewrite nth_error_app1 in Ex by exact Hin.
        apply perm_trans with (a :: pre); [apply replace_nth_perm, Ex|].
        apply Permutation_cons_append.
      * rewrite replace_nth_oob by exact Hout.
        rewrite nth_error_app2 in Ex by exact Hout.
        replace (Z.to_nat i - length pre)%nat with O in Ex by lia.
        injection Ex as <-. apply Permutation_cons_append.
    + intros Hin.
      rewrite nth_error_replace_nth_eq by lia.
      rewrite nth_error_app2 by lia.
      replace (Z.to_nat (Z.of_nat (length pre + 1) - 1) - length pre)%nat with O by lia.
      reflexivity.
    + intros j Hj Hjl.
      rewrite nth_error_replace_nth_neq by exact Hj.
      rewrite nth_error_app1 by lia; reflexivity.
    + split; reflexivity.
Qed.

Lemma push_elems (T : Type) (l : Layout) (c c' : Cursor) (v v' : SliceVec T) (x : T) :
  push l c v x = Some (c', v') -> elems (slice v') = elems (slice v) ++ [x].
Proof.
  unfold push; intros H.
  apply bind_some in H as ([c1 v1] & H1 & H).
  apply bind_some in H as (_ & _ & H).
  injection H as _ <-; cbn [slice elems].
  destruct (len v =? capacity v).
  - apply bind_some in H1 as (nc & _ & H1).
    apply bind_some in H1 as (d & _ & H1).
    destruct (reserve_some T l c c1 v v1 d H1) as (-> & _); reflexivity.
  - injection H1 as _ <-; reflexivity.
Qed.

Lemma len_elems (T : Type) (v : SliceVec T) (es : list T) :
  elems (slice v) = es -> len v = Z.of_nat (length es).
Proof. unfold len, slice_len; intros ->; reflexivity. Qed.

(** A [push] below the capacity neither calls the arena nor moves the
    vector. *)
Lemma push_within (T : Type) (l : Layout) (c : Cursor) (v : SliceVec T) (x : T) :
  len v < capacity v -> capacity v < usize_modulus ->
  push l c v x = Some (c, mkSliceVec (mkSlice (ptr (slice v)) (elems (slice v) ++ [x]))
                                     (capacity v)).
Proof.
  intros Hlt Hcap; unfold push.
  destruct (len v =? capacity v) eqn:E; zbool; [lia|].
  cbn [bind]; unfold add_chk.
  destruct (len v + 1 <? usize_modulus) eqn:E2; zbool; [reflexivity | lia].
Qed.

Lemma push_all_within (T : Type) (l : Layout) (c : Cursor) (xs : list T) :
  forall v : SliceVec T,
  len v + Z.of_nat (length xs) <= capacity v -> capacity v < usize_modulus ->
  push_all l c v xs
  = Some (c, mkSliceVec (mkSlice (ptr (slice v)) (elems (slice v) ++ xs)) (capacity v)).
Proof.
  induction xs as [|x xs IH]; intros v Hfit Hcap; cbn [push_all].
  - rewrite app_nil_r; destruct v as [[p es] k]; reflexivity.
  - cbn [length] in Hfit.
    rewrite (push_within T l c v x) by lia; cbn [bind].
    rewrite IH; cbn [slice elems ptr capacity].
    + rewrite <- app_assoc; reflexivity.
    + unfold len, slice_len in *; cbn [slice elems]; rewrite length_app; cbn [length]; lia.
    + exact Hcap.
Qed.

Lemma reserve_capacity_ge (T : Type) (l : Layout) (c c' : Cursor) (v v' : SliceVec T) (a : Z) :
  reserve l c v a = Some (c', v') -> len v + a <= capacity v'.
Proof.
  intros Hres.
  destruct (reserve_some T l c c' v v' a Hres) as (_ & Hsame & Hgrow).
  destruct (Z_le_gt_dec (len v + a) (capacity v)) as [Hle|Hgt].
  - rewrite (Hsame Hle); exact Hle.
  - specialize (Hgrow ltac:(lia)).
    assert (Hpos : 0 < (if 0 <? capacity v then capacity v else 4))
      by (destruct (0 <? capacity v) eqn:E; zbool; lia).
    destruct (grow_loop_spec 65 _ _ _ Hpos Hgrow) as (k & _ & Hle & _); exact Hle.
Qed.

(** X6.  [pop] on an empty vector returns [None] and changes nothing; [pop]
    right after [push(x)] returns [x] and gives back the elements from
    before the push. *)
Theorem pop_after_push (T : Type) (l : Layout) (c c' : Cursor) (v v' : SliceVec T) (x : T) :
  (elems (slice v) = [] -> pop v = (v, None)) /\
  (push l c v x = Some (c', v') ->
   pop v' = (mkSliceVec (mkSlice (ptr (slice v')) (elems (slice v))) (capacity v'), Some x)).
Proof.
  split.
  - intros He; unfold pop, is_empty; rewrite (len_elems T v [] He); reflexivity.
  - intros H; pose proof (push_elems T l c c' v v' x H) as He.
    unfold pop, is_empty; rewrite (len_elems T v' _ He), length_app; cbn [length].
    destruct (Z.of_nat (length (elems (slice v)) + 1) =? 0) eqn:E; zbool; [lia|].
    rewrite He, length_app; cbn [length].
    replace (Nat.pred (length (elems (slice v)) + 1)) with (length (elems (slice v))) by lia.
    rewrite firstn_app, firstn_all, Nat.sub_diag, firstn_O, app_nil_r.
    rewrite nth_error_app2, Nat.sub_diag by lia; reflexivity.
Qed.

(** X7.  A completed [append(other)] reserves room for the elements of
    [other] but leaves the elements of [self] (and its length) as they
    were, and empties [other]: the moved elements are in neither vector. *)
Theorem append_loses_elements (T : Type) (l : Layout) (c c' : Cursor) (v o v' o' : SliceVec T) :
  append l c v o = Some (c', v', o') ->
  elems (slice v') = elems (slice v) /\
  elems (slice o') = [] /\ capacity o' = capacity o /\
  len v + len o <= capacity v'.
Proof.
  unfold append; intros H.
  apply bind_some in H as ([c1 v1] & Hres & H).
  injection H as <- <- <-; cbn [slice elems capacity].
  destruct (reserve_some T l c c1 v v1 (len o) Hres) as (He & _ & _).
  split; [exact He|]. split; [reflexivity|]. split; [reflexivity|].
  apply (reserve_capacity_ge T l c c1 v v1 (len o) Hres).
Qed.

(** X8.  Pushing elements while the length stays within the capacity does
    not call the arena: the cursor, the pointer and the capacity are
    unchanged and the elements are appended.  In particular, after [clear]
    the vector can be refilled up to its capacity without allocating. *)
Theorem push_within_capacity_no_allocation (T : Type) (l : Layout) (c : Cursor)
  (v : SliceVec T) (xs : list T) :
  capacity v < usize_modulus ->
  (len v + Z.of_nat (length xs) <= capacity v ->
   push_all l c v xs
   = Some (c, mkSliceVec (mkSlice (ptr (slice v)) (elems (slice v) ++ xs)) (capacity v))) /\
  (Z.of_nat (length xs) <= capacity v ->
   push_all l c (clear v) xs = Some (c, mkSliceVec (mkSlice (ptr (slice v)) xs) (capacity v))).
Proof.
  intros Hcap; split.
  - intros Hfit; apply push_all_within; assumption.
  - intros Hfit.
    rewrite (push_all_within T l c xs (clear v)); unfold clear; cbn [slice elems ptr capacity];
      [reflexivity | unfold len, slice_len; cbn; lia | exact Hcap].
Qed.

(** X9.  After a completed [reserve(additional)], the next [additional]
    pushes do not call the arena. *)
Theorem reserve_then_push_no_allocation (T : Type) (l : Layout) (c c1 : Cursor)
  (v v1 : SliceVec T) (additional : Z) (xs : list T) :
  reserve l c v additional = Some (c1, v1) ->
  Z.of_nat (length xs) <= additional -> capacity v1 < usize_modulus ->
  push_all l c1 v1 xs
  = Some (c1, mkSliceVec (mkSlice (ptr (slice v1)) (elems (slice v) ++ xs)) (capacity v1)).
Proof.
  intros Hres Hxs Hcap.
  destruct (reserve_some T l c c1 v v1 additional Hres) as (He & _ & _).
  pose proof (reserve_capacity_ge T l c c1 v v1 additional Hres) as Hge.
  rewrite (push_all_within T l c1 xs v1); [rewrite He; reflexivity | | exact Hcap].
  rewrite (len_elems T v1 _ He); unfold len, slice_len in Hge; lia.
Qed.

(** One [push] keeps [len <= capacity] and never shrinks the capacity. *)
Lemma push_invariant (T : Type) (l : Layout) (c c' : Cursor) (v v' : SliceVec T) (x : T) :
  0 <= capacity v -> len v <= capacity v ->
  push l c v x = Some (c', v') ->
  len v' <= capacity v' /\ capacity v <= capacity v'.
Proof.
  intros H0 Hle H.
  destruct (push_some T l c c' v v' x H0 Hle H) as (He & Hk).
  assert (Hlen : len v' = len v + 1)
    by (unfold len, slice_len; rewrite He, length_app; cbn [length]; lia).
  rewrite Hlen, Hk.
  destruct (len v =? capacity v) eqn:E; zbool;
    [destruct (capacity v =? 0) eqn:E0; zbool|]; lia.
Qed.

(** X10.  [extend_from_slice(other)] appends the clones of the elements of
    [other] in order, and keeps [len <= capacity] and a capacity that never
    shrinks. *)
Theorem extend_from_slice_spec (T : Type) (clone : T -> T) (l : Layout) (c c' : Cursor)
  (v v' : SliceVec T) (other : list T) :
  0 <= capacity v -> len v <= capacity v ->
  extend_from_slice clone l c v other = Some (c', v') ->
  elems (slice v') = elems (slice v) ++ map clone other /\
  len v' <= capacity v' /\ capacity v <= capacity v'.
Proof.
  unfold extend_from_slice.
  generalize (map clone other) as xs; intros xs.
  revert c v; induction xs as [|x xs IH]; intros c v H0 Hle H; cbn [push_all] in H.
  - injection H as _ <-; rewrite app_nil_r; split; [reflexivity | lia].
  - apply bind_some in H as ([c1 v1] & Hp & H).
    pose proof (push_elems T l c c1 v v1 x Hp) as He.
    destruct (push_invariant T l c c1 v v1 x H0 Hle Hp) as (Hle1 & Hk1).
    destruct (IH c1 v1 ltac:(lia) Hle1 H) as (He' & Hle' & Hk').
    rewrite He', He, <- app_assoc; split; [reflexivity | lia].
Qed.

(** The first step of [resize] and [resize_with]: when the capacity is below
    [n], [reserve(n - old_len)]. *)
Lemma resize_reserve (T : Type) (l : Layout) (c c1 : Cursor) (v v1 : SliceVec T) (n : Z) :
  (if capacity v <? n then d <- sub_chk n (len v) ;; reserve l c v d else Some (c, v))
  = Some (c1, v1) ->
  elems (slice v1) = elems (slice v) /\ n <= capacity v1 /\
  (n <= capacity v -> c1 = c /\ v1 = v).
Proof.
  destruct (capacity v <? n) eqn:E; zbool; intros H.
  - apply bind_some in H as (d & Hd & Hres).
    unfold sub_chk in Hd; destruct (len v <=? n) eqn:Ed; [|discriminate]; zbool.
    injection Hd as <-.
    destruct (reserve_some T l c c1 v v1 _ Hres) as (He & _ & _).
    pose proof (reserve_capacity_ge T l c c1 v v1 _ Hres).
    split; [exact He | split; [lia | intros; lia]].
  - injection H as <- <-; split; [reflexivity | split; [lia | split; reflexivity]].
Qed.

(** X11.  A completed [resize(n, value)] leaves exactly [n] elements and a
    capacity of at least [n].  Shrinking keeps the first [n] elements;
    growing appends [n - len - 1] clones of [value] and then [value]
    itself.  When [n] is within the capacity the arena is not called. *)
Theorem resize_spec (T : Type) (clone : T -> T) (l : Layout) (c c' : Cursor)
  (v v' : SliceVec T) (n : Z) (value : T) :
  0 <= n ->
  resize clone l c v n value = Some (c', v') ->
  len v' = n /\ n <= capacity v' /\
  (n <= len v -> elems (slice v') = firstn (Z.to_nat n) (elems (slice v))) /\
  (len v < n ->
   elems (slice v') = elems (slice v) ++ repeat (clone value) (Z.to_nat (n - len v - 1)) ++ [value]) /\
  (n <= capacity v -> c' = c /\ ptr (slice v') = ptr (slice v) /\ capacity v' = capacity v).
Proof.
  intros Hn; unfold resize; intros H.
  apply bind_some in H as ([c1 v1] & Hr & H).
  destruct (resize_reserve T l c c1 v v1 n Hr) as (He & Hk & Hsame).
  injection H as <- <-; cbn [slice elems ptr capacity].
  rewrite He.
  assert (HL : 0 <= len v) by (unfold len, slice_len; lia).
  unfold len, slice_len in *.
  set (es := elems (slice v)) in *.
  rewrite Z.gtb_ltb; destruct (Z.of_nat (length es) <? n) eqn:E1; zbool.
  - replace (Z.max (n - 1) 0 - Z.of_nat (length es)) with (n - Z.of_nat (length es) - 1) by lia.
    split; [cbn [slice elems]; rewrite !length_app, repeat_length; cbn [length]; lia|].
    split; [exact Hk|]. split; [intros; lia|].
    split; [intros _; rewrite <- app_assoc; reflexivity|].
    intros Hc; destruct (Hsame Hc) as [-> ->]; repeat split.
  - replace (Z.to_nat (Z.max (n - 1) 0 - Z.of_nat (length es))) with O by lia.
    cbn [repeat]; rewrite app_nil_r.
    assert (Hf : (if n <? Z.of_nat (length es) then firstn (Z.to_nat n) es else es)
                 = firstn (Z.to_nat n) es).
    { destruct (n <? Z.of_nat (length es)) eqn:E2; zbool; [reflexivity|].
      rewrite firstn_all2 by lia; reflexivity. }
    rewrite Hf.
    split; [cbn [slice elems]; rewrite length_firstn; lia|].
    split; [exact Hk|]. split; [intros; reflexivity|]. split; [intros; lia|].
    intros Hc; destruct (Hsame Hc) as [-> ->]; repeat split.
Qed.

Lemma call_n_snoc (T S : Type) (f : S -> S * T) (k : nat) :
  forall s, call_n f (Datatypes.S k) s
            = let (s1, xs) := call_n f k s in let (s2, x) := f s1 in (s2, xs ++ [x]).
Proof.
  induction k as [|k IH]; intros s.
  - cbn; destruct (f s) as [s1 x]; reflexivity.
  - change (call_n f (Datatypes.S (Datatypes.S k)) s)
      with (let (s1, x) := f s in let (s2, xs) := call_n f (Datatypes.S k) s1 in (s2, x :: xs)).
    destruct (f s) as [s1 x] eqn:Ef.
    rewrite IH; cbn [call_n]; rewrite Ef.
    destruct (call_n f k s1) as [s2 xs]; destruct (f s2) as [s3 y]; reflexivity.
Qed.

Lemma call_n_length (T S : Type) (f : S -> S * T) (k : nat) :
  forall s, length (snd (call_n f k s)) = k.
Proof.
  induction k as [|k IH]; intros s; cbn; [reflexivity|].
  destruct (f s) as [s1 x]; specialize (IH s1).
  destruct (call_n f k s1) as [s2 xs]; cbn in *; lia.
Qed.

(** X12.  A completed [resize_with(n, f)] leaves exactly [n] elements and a
    capacity of at least [n].  Shrinking keeps the first [n] elements and
    never calls [f]; growing calls [f] exactly [n - len] times and appends
    its results in call order. *)
Theorem resize_with_spec (T S : Type) (l : Layout) (c c' : Cursor) (v v' : SliceVec T)
  (n : Z) (f : S -> S * T) (s s' : S) :
  0 <= n ->
  resize_with l c v n f s = Some (c', v', s') ->
  len v' = n /\ n <= capacity v' /\
  (n <= len v -> elems (slice v') = firstn (Z.to_nat n) (elems (slice v)) /\ s' = s) /\
  (len v < n -> exists xs, call_n f (Z.to_nat (n - len v)) s = (s', xs) /\
                           elems (slice v') = elems (slice v) ++ xs).
Proof.
  intros Hn; unfold resize_with; intros H.
  apply bind_some in H as ([c1 v1] & Hr & H).
  destruct (resize_reserve T l c c1 v v1 n Hr) as (He & Hk & _).
  assert (HL : 0 <= len v) by (unfold len, slice_len; lia).
  rewrite Z.gtb_ltb in H; destruct (len v <? n) eqn:E1; zbool.
  - pose proof (call_n_snoc T S f (Z.to_nat (Z.max (n - 1) 0 - len v)) s) as Hsnoc.
    pose proof (call_n_length T S f (Z.to_nat (Z.max (n - 1) 0 - len v)) s) as Hlen.
    destruct (call_n f (Z.to_nat (Z.max (n - 1) 0 - len v)) s) as [s1 xs] eqn:Ec.
    destruct (f s1) as [s2 x] eqn:Ef.
    cbv beta iota zeta in H; injection H as <- <- <-; cbn [slice elems capacity].
    replace (Z.to_nat (n - len v)) with (Datatypes.S (Z.to_nat (Z.max (n - 1) 0 - len v)))
      by lia.
    cbn [snd] in Hlen.
    split; [unfold len, slice_len in *; cbn [slice elems];
            rewrite !length_app, He; cbn [length]; lia|].
    split; [exact Hk|]. split; [intros; lia|].
    intros _; exists (xs ++ [x]); split; [exact Hsnoc|].
    rewrite He, <- app_assoc; reflexivity.
  - replace (Z.to_nat (Z.max (n - 1) 0 - len v)) with O in H by lia.
    cbn [call_n] in H; rewrite app_nil_r in H.
    assert (Hf : (if n <? len v then firstn (Z.to_nat n) (elems (slice v1)) else elems (slice v1))
                 = firstn (Z.to_nat n) (elems (slice v))).
    { rewrite He; destruct (n <? len v) eqn:E2; zbool; [reflexivity|].
      rewrite firstn_all2 by (unfold len, slice_len in *; lia); reflexivity. }
    destruct (n <? len v) eqn:E2;
      injection H as <- <- <-; cbn [slice elems capacity]; rewrite <- Hf;
      (split; [unfold len, slice_len; cbn [slice elems]; rewrite Hf, length_firstn;
               unfold len, slice_len in *; lia|]);
      (split; [exact Hk|]); (split; [intros; split; reflexivity | intros; lia]).
Qed.

(** The conditions under which [allocate_inner] completes. *)
Lemma allocate_inner_complete (l : Layout) (c : Cursor) (count : Z) :
  wf_layout l -> wf_cursor c -> 0 <= count < usize_modulus ->
  Z.land (position c) (align l - 1) <= 64 ->
  position c + skip_of l (position c) + size l * count <= cap c ->
  position c + skip_of l (position c) < cap c ->
  allocate_inner l c count =
  Some (set_position c (position c + skip_of l (position c) + size l * count),
        head c + position c + skip_of l (position c)).
Proof.
  intros Hl Hc Hn Hm Hfit Hin.
  open_alloc l c Hl Hc.
  split_ifs; try lia; try (exfalso; nia).
  all: close_pair.
Qed.


(** X14.  A completed clone of a [SliceVec] holds the clones of the
    elements and has the same capacity.  A vector of capacity [0] is cloned
    without calling the arena; otherwise the clone's buffer of [capacity]
    elements is fresh memory at or after the cursor, so it overlaps no block
    handed out before. *)
Theorem slicevec_clone_spec (T : Type) (clone : T -> T) (l : Layout) (c c' : Cursor)
  (v w : SliceVec T) :
  wf_layout l -> wf_cursor c -> 0 <= capacity v ->
  slicevec_clone clone l c v = Some (c', w) ->
  elems (slice w) = map clone (elems (slice v)) /\ capacity w = capacity v /\
  (capacity v = 0 -> c' = c /\ ptr (slice w) = dangling l) /\
  (0 < capacity v ->
   head c + position c <= ptr (slice w) /\
   ptr (slice w) + capacity v * size l = head c' + position c').
Proof.
  intros Hl Hc Hk H.
  unfold slicevec_clone, with_capacity, new_empty in H.
  destruct (capacity v =? 0) eqn:E; zbool.
  - cbn [bind] in H; injection H as <- <-; cbn [slice elems ptr capacity].
    split; [reflexivity|]. split; [reflexivity|]. split; [intros; split; reflexivity | lia].
  - apply bind_some in H as ([c1 w1] & H1 & H).
    apply bind_some in H1 as ([c3 s3] & H2 & H1).
    apply bind_some in H2 as ([c2 q] & Ha & H2).
    injection H2 as <- <-; injection H1 as <- <-; injection H as <- <-.
    cbn [slice elems ptr capacity].
    split; [reflexivity|]. split; [reflexivity|]. split; [lia|].
    intros _.
    destruct (allocate_inner_in_bounds l c c2 (capacity v) q Hl Hc Hk Ha)
      as (_ & Hend & _).
    destruct (allocate_inner_facts l c c2 (capacity v) q Hl Hc Ha) as (_ & _ & _ & Hs & Hq & _).
    split; lia.
Qed.

(** X15.  [split_off(at)] panics when [at > len]; a completed call returns
    a vector holding exactly the elements from [at] on, with capacity and
    length [len - at]. *)
Theorem split_off_returned (T : Type) (l : Layout) (c : Cursor) (v : SliceVec T) (at_ : Z) :
  0 <= at_ ->
  (len v < at_ -> split_off l c v at_ = None) /\
  (forall c' v' ret, split_off l c v at_ = Some (c', v', ret) ->
   elems (slice ret) = skipn (Z.to_nat at_) (elems (slice v)) /\
   capacity ret = len v - at_ /\ len ret = len v - at_).
Proof.
  intros Ha; unfold split_off; split.
  - intros Hlt; unfold sub_chk.
    destruct (at_ <=? len v) eqn:E; zbool; [lia | reflexivity].
  - intros c' v' ret H.
    apply bind_some in H as (n & Hn & H).
    unfold sub_chk in Hn; destruct (at_ <=? len v) eqn:E; [|discriminate]; zbool.
    injection Hn as <-.
    apply bind_some in H as ([c1 r] & Hw & H).
    injection H as _ _ <-; cbn [slice elems capacity].
    unfold with_capacity in Hw.
    apply bind_some in Hw as ([c2 s2] & _ & Hw); injection Hw as _ <-; cbn [capacity].
    unfold len, slice_len in *.
    rewrite firstn_all2 by (rewrite length_skipn; lia).
    split; [reflexivity|]. split; [reflexivity|].
    cbn [slice elems]; rewrite length_skipn; lia.
Qed.

(** ** The reference-counted arena *)

Lemma allocate_inner_same_buffer (l : Layout) (c c' : Cursor) (count q : Z) :
  allocate_inner l c count = Some (c', q) -> head c' = head c /\ cap c' = cap c.
Proof.
  unfold allocate_inner, set_position; unfold_chk.
  split_ifs; intros H; try discriminate.
  all: injection H as <- _; split; reflexivity.
Qed.

Lemma Rc_allocate_each_same (reqs : list (Layout * Z)) :
  forall a a' qs, Rc.allocate_each a reqs = Some (a', qs) ->
  Rc.strong_count a' = Rc.strong_count a /\ Rc.backing a' = Rc.backing a /\
  head (Rc.inner a') = head (Rc.inner a) /\ cap (Rc.inner a') = cap (Rc.inner a).
Proof.
  induction reqs as [|[l n] reqs IH]; intros a a' qs H; cbn [Rc.allocate_each] in H.
  - injection H as <- _; repeat split.
  - apply bind_some in H as ([a1 q] & H1 & H).
    apply bind_some in H as ([a2 qs2] & H2 & H).
    injection H as <- _.
    unfold Rc.allocate in H1.
    apply bind_some in H1 as ([c1 q1] & Ha & H1); injection H1 as <- _.
    destruct (allocate_inner_same_buffer l (Rc.inner a) c1 n q1 Ha) as (Hh & Hc).
    destruct (IH _ _ _ H2) as (E1 & E2 & E3 & E4); cbn in E1, E2, E3, E4.
    repeat split; congruence.
Qed.

(** X16.  On an arena whose owner is the only handle, any sequence of
    completed allocations is undone by [clear]: it gives back the arena as
    [init_capacity] made it, and the same allocations made again on the
    cleared arena return the same pointers and end in the same state. *)
Theorem Rc_clear_after_allocations (b : ArenaBacking) (cap_ os_result : Z)
  (reqs : list (Layout * Z)) (a : Rc.Arena) (qs : list Z) :
  Rc.allocate_each (Rc.init_capacity b cap_ os_result) reqs = Some (a, qs) ->
  Rc.clear a = Some (Rc.init_capacity b cap_ os_result) /\
  (forall a', Rc.clear a = Some a' -> Rc.allocate_each a' reqs = Some (a, qs)).
Proof.
  intros H.
  assert (Hc : Rc.clear a = Some (Rc.init_capacity b cap_ os_result)).
  2: { split; [exact Hc|]. intros a' Ha'; rewrite Hc in Ha'; injection Ha' as <-; exact H. }
  destruct (Rc_allocate_each_same reqs _ _ _ H) as (E1 & E2 & E3 & E4).
  unfold Rc.clear; rewrite E1; cbn [bind assert Nat.eqb Rc.init_capacity Rc.strong_count] in *.
  destruct a as [[h p k] sc bk]; cbn in *; subst.
  unfold set_position; cbn; reflexivity.
Qed.

(** ** The generation-token arena without cloned tokens *)

(** While no token is cloned: no token and an unlocked arena with its
    cursor at [0], or one token and a locked arena. *)
Definition lock_inv (w : Region.World) : Prop :=
  (Region.live_tokens w = 0%nat /\ Region.locked (Region.arena w) = false /\
   position (Region.cursor (Region.arena w)) = 0) \/
  (Region.live_tokens w = 1%nat /\ Region.locked (Region.arena w) = true).

Lemma step_lock_inv (w w' : Region.World) (o : Region.Op) :
  lock_inv w -> Region.is_clone o = false -> Region.step w o = Some w' -> lock_inv w'.
Proof.
  unfold lock_inv; intros Hinv Ho H.
  destruct o; cbn [Region.is_clone] in Ho; try discriminate;
    destruct Hinv as [(H0 & Hl & Hp) | (H1 & Hl)]; cbn [Region.step] in H.
  - unfold Region.generation_token in H; rewrite Hl in H.
    injection H as <-; right; cbn; rewrite H0; split; reflexivity.
  - unfold Region.generation_token in H; rewrite Hl in H.
    injection H as <-; right; cbn; split; assumption.
  - rewrite H0 in H; discriminate.
  - rewrite H1 in H; cbn in H; injection H as <-; left; cbn; repeat split.
  - rewrite H0 in H; discriminate.
  - rewrite H1 in H; cbn [Nat.eqb] in H.
    apply bind_some in H as ([c' q] & _ & H); injection H as <-.
    right; cbn; split; [reflexivity | exact Hl].
Qed.

Lemma run_lock_inv (os : list Region.Op) :
  forall w w', lock_inv w -> forallb (fun o => negb (Region.is_clone o)) os = true ->
  Region.run w os = Some w' -> lock_inv w'.
Proof.
  induction os as [|o os IH]; intros w w' Hinv Hos H; cbn [Region.run] in H.
  - injection H as <-; exact Hinv.
  - cbn [forallb] in Hos; apply andb_true_iff in Hos as [Ho Hos].
    apply bind_some in H as (w1 & H1 & H).
    apply (IH w1 w'); [|exact Hos|exact H].
    apply (step_lock_inv w w1 o Hinv); [destruct (Region.is_clone o); [discriminate|reflexivity] | exact H1].
Qed.

(** X17.  As long as no token is cloned, the lock of a region arena works
    as intended: at most one token is live, the arena is locked exactly
    while it is, and a [generation_token] that succeeds always finds the
    cursor at [0]. *)
Theorem Region_lock_without_clone (b : ArenaBacking) (cap_ os_result : Z)
  (os : list Region.Op) (w : Region.World) :
  forallb (fun o => negb (Region.is_clone o)) os = true ->
  Region.run (Region.mkWorld (Region.init_capacity b cap_ os_result) 0) os = Some w ->
  (Region.live_tokens w <= 1)%nat /\
  (Region.locked (Region.arena w) = true <-> Region.live_tokens w = 1%nat) /\
  (forall a' t, Region.generation_token (Region.arena w) = (a', Region.Ok t) ->
   position (Region.cursor (Region.arena w)) = 0).
Proof.
  intros Hos H.
  assert (Hinv : lock_inv w).
  { apply (run_lock_inv os (Region.mkWorld (Region.init_capacity b cap_ os_result) 0) w); [|exact Hos|exact H].
    left; cbn; repeat split. }
  unfold lock_inv in Hinv.
  destruct Hinv as [(H0 & Hl & Hp) | (H1 & Hl)].
  - rewrite H0, Hl; split; [lia|]. split; [split; discriminate|].
    intros; exact Hp.
  - rewrite H1, Hl; split; [lia|]. split; [split; reflexivity|].
    intros a' t Hg; unfold Region.generation_token in Hg; rewrite Hl in Hg; discriminate.
Qed.

(** ** The iterators of lib.rs *)

Lemma collect_S (l : Layout) (f : nat) (it : LibIter.SliceIter) :
  LibIter.collect (S f) l it
  = match LibIter.next l it with
    | (it', Some x) => let (xs, it'') := LibIter.collect f l it' in (x :: xs, it'')
    | (it', None) => ([], it')
    end.
Proof. reflexivity. Qed.

Lemma collect_from (l : Layout) (n : nat) :
  forall p, 0 < size l ->
  LibIter.collect (S n) l (LibIter.mkIter p (p + Z.of_nat n * size l))
  = (map (fun i => p + Z.of_nat i * size l) (seq 0 n),
     LibIter.mkIter (p + Z.of_nat n * size l) (p + Z.of_nat n * size l)).
Proof.
  induction n as [|n IH]; intros p Hs.
  - rewrite collect_S; unfold LibIter.next; cbn [LibIter.it_ptr LibIter.it_end].
    replace (p + Z.of_nat 0 * size l) with p by lia.
    rewrite Z.eqb_refl; reflexivity.
  - rewrite collect_S; unfold LibIter.next at 1; cbn [LibIter.it_ptr LibIter.it_end].
    destruct (p =? p + Z.of_nat (S n) * size l) eqn:E; zbool; [lia|].
    replace (p + Z.of_nat (S n) * size l) with ((p + size l) + Z.of_nat n * size l) by lia.
    rewrite IH by exact Hs.
    f_equal; cbn [seq map].
    replace (p + Z.of_nat 0 * size l) with p by lia; f_equal.
    rewrite <- seq_shift, map_map.
    apply map_ext; intros i; lia.
Qed.

(** X18.  Iterating with [next] over a slice of [n] elements at [p] yields
    the [n] element addresses [p, p + size, ...] in order and then [None];
    [size_hint] reports [n] for the fresh iterator. *)
Theorem lib_iter_forward (l : Layout) (p n : Z) :
  0 < size l -> 0 <= n -> 0 <= p -> p + n * size l < usize_modulus ->
  LibIter.collect (S (Z.to_nat n)) l (LibIter.iter l p n)
  = (map (fun i => p + Z.of_nat i * size l) (seq 0 (Z.to_nat n)),
     LibIter.mkIter (p + n * size l) (p + n * size l)) /\
  LibIter.size_hint l (LibIter.iter l p n) = Some (n, Some n).
Proof.
  intros Hs Hn Hp Hend; split.
  - unfold LibIter.iter.
    pose proof (collect_from l (Z.to_nat n) p Hs) as H.
    rewrite Z2Nat.id in H by exact Hn; exact H.
  - unfold LibIter.size_hint, LibIter.iter; cbn [LibIter.it_ptr LibIter.it_end].
    destruct (size l =? 0) eqn:E; zbool; [lia|].
    replace (p + n * size l - p) with (n * size l) by lia.
    rewrite Z.mod_small by (unfold usize_modulus in *; nia).
    rewrite Z.div_mul by lia; reflexivity.
Qed.

(** X19.  [next_back] on a non-empty iterator returns the address one past
    the last element, not the last element; draining the iterator after
    that yields only the first [n - 1] elements, so the address of the last
    element is never yielded. *)
Theorem lib_next_back_past_end (l : Layout) (p n : Z) :
  0 < size l -> 1 <= n ->
  LibIter.next_back l (LibIter.iter l p n)
  = (LibIter.iter l p (n - 1), Some (p + n * size l)) /\
  fst (LibIter.collect (Z.to_nat n) l (LibIter.iter l p (n - 1)))
  = map (fun i => p + Z.of_nat i * size l) (seq 0 (Z.to_nat (n - 1))) /\
  ~ In (p + (n - 1) * size l)
       (p + n * size l :: fst (LibIter.collect (Z.to_nat n) l (LibIter.iter l p (n - 1)))).
Proof.
  intros Hs Hn.
  assert (Hb : LibIter.next_back l (LibIter.iter l p n)
               = (LibIter.iter l p (n - 1), Some (p + n * size l))).
  { unfold LibIter.next_back, LibIter.iter; cbn [LibIter.it_ptr LibIter.it_end].
    destruct (p =? p + n * size l) eqn:E; zbool; [nia|].
    replace (p + n * size l - size l) with (p + (n - 1) * size l) by lia; reflexivity. }
  assert (Hc : fst (LibIter.collect (Z.to_nat n) l (LibIter.iter l p (n - 1)))
               = map (fun i => p + Z.of_nat i * size l) (seq 0 (Z.to_nat (n - 1)))).
  { replace (Z.to_nat n) with (S (Z.to_nat (n - 1))) by lia.
    unfold LibIter.iter.
    pose proof (collect_from l (Z.to_nat (n - 1)) p Hs) as H.
    rewrite Z2Nat.id in H by lia; rewrite H; reflexivity. }
  split; [exact Hb|]. split; [exact Hc|].
  rewrite Hc; intros [Heq | Hin]; [nia|].
  apply in_map_iff in Hin as (i & Hi & Hseq).
  apply in_seq in Hseq; nia.
Qed.

(** ** Witnesses of the properties above *)

Lemma truncate_spec_witness :
  0 <= 2 /\ 0 <= 3 /\ elems (slice (truncate v4 2)) = [10; 20] /\
  truncate (truncate v4 2) 3 = truncate v4 2.
Proof.
  split; [lia|]. split; [lia|].
  destruct (truncate_spec Z v4 2 3 ltac:(lia) ltac:(lia)) as (He & _ & _ & Ht).
  rewrite He, Ht; split; reflexivity.
Defined.

Lemma swap_remove_spec_witness :
  0 <= 1 /\ 1 < len v4 /\
  swap_remove v4 1 = Some (mkSliceVec (mkSlice 4160 [10; 40; 30]) 4, 20) /\
  Permutation [20; 10; 40; 30] [10; 20; 30; 40].
Proof.
  split; [lia|]. split; [vm_compute; reflexivity|]. split; [reflexivity|].
  destruct (swap_remove_spec Z v4 1 ltac:(lia)) as (_ & Hin).
  destruct (Hin ltac:(vm_compute; reflexivity)) as (v' & x & Hs & _ & _ & Hp & _).
  vm_compute in Hs; injection Hs as <- <-; exact Hp.
Defined.

Lemma pop_after_push_witness :
  push l_usize c_v4 (mkSliceVec (mkSlice 4160 [10; 20; 30]) 4) 40 = Some (c_v4, v4) /\
  pop v4 = (mkSliceVec (mkSlice 4160 [10; 20; 30]) 4, Some 40).
Proof.
  assert (Hp : push l_usize c_v4 (mkSliceVec (mkSlice 4160 [10; 20; 30]) 4) 40
               = Some (c_v4, v4)) by reflexivity.
  split; [exact Hp|].
  destruct (pop_after_push Z l_usize c_v4 c_v4 (mkSliceVec (mkSlice 4160 [10; 20; 30]) 4)
              v4 40) as (_ & H).
  exact (H Hp).
Defined.

Lemma append_loses_elements_witness :
  append l_usize c_v4 v4 (mkSliceVec (mkSlice 5000 [1; 2]) 2)
  = Some (mkCursor 4096 128 4096, mkSliceVec (mkSlice 4160 [10; 20; 30; 40]) 8,
          mkSliceVec (mkSlice 5000 []) 2) /\
  elems (slice (mkSliceVec (mkSlice 4160 [10; 20; 30; 40]) 8)) = elems (slice v4).
Proof.
  assert (H : append l_usize c_v4 v4 (mkSliceVec (mkSlice 5000 [1; 2]) 2)
              = Some (mkCursor 4096 128 4096, mkSliceVec (mkSlice 4160 [10; 20; 30; 40]) 8,
                      mkSliceVec (mkSlice 5000 []) 2)) by reflexivity.
  split; [exact H|].
  destruct (append_loses_elements Z l_usize c_v4 _ v4 _ _ _ H) as (He & _); exact He.
Defined.

Lemma push_within_capacity_no_allocation_witness :
  capacity (mkSliceVec (mkSlice 4160 [10]) 4) < usize_modulus /\
  push_all l_usize c_v4 (mkSliceVec (mkSlice 4160 [10]) 4) [20; 30]
  = Some (c_v4, mkSliceVec (mkSlice 4160 [10; 20; 30]) 4).
Proof.
  assert (Hc : capacity (mkSliceVec (mkSlice 4160 [10]) 4) < usize_modulus)
    by (unfold usize_modulus; cbn; lia).
  split; [exact Hc|].
  destruct (push_within_capacity_no_allocation Z l_usize c_v4
              (mkSliceVec (mkSlice 4160 [10]) 4) [20; 30] Hc) as (H & _).
  exact (H ltac:(vm_compute; discriminate)).
Defined.

Lemma reserve_then_push_no_allocation_witness :
  reserve l_usize c_v4 v4 3
  = Some (mkCursor 4096 128 4096, mkSliceVec (mkSlice 4160 [10; 20; 30; 40]) 8) /\
  push_all l_usize (mkCursor 4096 128 4096) (mkSliceVec (mkSlice 4160 [10; 20; 30; 40]) 8)
    [50; 60; 70]
  = Some (mkCursor 4096 128 4096, mkSliceVec (mkSlice 4160 [10; 20; 30; 40; 50; 60; 70]) 8).
Proof.
  assert (Hr : reserve l_usize c_v4 v4 3
               = Some (mkCursor 4096 128 4096, mkSliceVec (mkSlice 4160 [10; 20; 30; 40]) 8))
    by reflexivity.
  split; [exact Hr|].
  exact (reserve_then_push_no_allocation Z l_usize c_v4 _ v4 _ 3 [50; 60; 70] Hr
           ltac:(cbn; lia) ltac:(unfold usize_modulus; cbn; lia)).
Defined.

Lemma extend_from_slice_spec_witness :
  0 <= capacity v4 /\ len v4 <= capacity v4 /\
  extend_from_slice (fun x => x) l_usize c_v4 v4 [50; 60]
  = Some (mkCursor 4096 128 4096, mkSliceVec (mkSlice 4160 [10; 20; 30; 40; 50; 60]) 8) /\
  6 <= 8.
Proof.
  assert (H0 : 0 <= capacity v4) by (cbn; lia).
  assert (H1 : len v4 <= capacity v4) by (vm_compute; discriminate).
  assert (H : extend_from_slice (fun x => x) l_usize c_v4 v4 [50; 60]
              = Some (mkCursor 4096 128 4096,
                      mkSliceVec (mkSlice 4160 [10; 20; 30; 40; 50; 60]) 8)) by reflexivity.
  split; [exact H0|]. split; [exact H1|]. split; [exact H|].
  destruct (extend_from_slice_spec Z (fun x => x) l_usize c_v4 _ v4 _ [50; 60] H0 H1 H)
    as (_ & Hle & _).
  exact Hle.
Defined.

Lemma resize_spec_witness :
  0 <= 7 /\
  resize (fun x => x) l_usize c_v4 v4 7 9
  = Some (mkCursor 4096 128 4096, mkSliceVec (mkSlice 4160 [10; 20; 30; 40; 9; 9; 9]) 8) /\
  len (mkSliceVec (mkSlice 4160 [10; 20; 30; 40; 9; 9; 9]) 8) = 7.
Proof.
  assert (H : resize (fun x => x) l_usize c_v4 v4 7 9
              = Some (mkCursor 4096 128 4096,
                      mkSliceVec (mkSlice 4160 [10; 20; 30; 40; 9; 9; 9]) 8)) by reflexivity.
  split; [lia|]. split; [exact H|].
  destruct (resize_spec Z (fun x => x) l_usize c_v4 _ v4 _ 7 9 ltac:(lia) H) as (Hl & _).
  exact Hl.
Defined.

Lemma resize_with_spec_witness :
  0 <= 7 /\
  resize_with l_usize c_v4 v4 7 (fun s => (s + 1, s)) 100
  = Some (mkCursor 4096 128 4096,
          mkSliceVec (mkSlice 4160 [10; 20; 30; 40; 100; 101; 102]) 8, 103) /\
  len (mkSliceVec (mkSlice 4160 [10; 20; 30; 40; 100; 101; 102]) 8) = 7.
Proof.
  assert (H : resize_with l_usize c_v4 v4 7 (fun s => (s + 1, s)) 100
              = Some (mkCursor 4096 128 4096,
                      mkSliceVec (mkSlice 4160 [10; 20; 30; 40; 100; 101; 102]) 8, 103))
    by reflexivity.
  split; [lia|]. split; [exact H|].
  destruct (resize_with_spec Z Z l_usize c_v4 _ v4 _ 7 (fun s => (s + 1, s)) 100 103
              ltac:(lia) H) as (Hl & _).
  exact Hl.
Defined.


Lemma slicevec_clone_spec_witness :
  wf_layout l_usize /\ wf_cursor c_v4 /\ 0 <= capacity v4 /\
  slicevec_clone (fun x => x) l_usize c_v4 v4
  = Some (mkCursor 4096 192 4096, mkSliceVec (mkSlice 4256 [10; 20; 30; 40]) 4) /\
  4096 + 96 <= 4256.
Proof.
  assert (Hl : wf_layout l_usize) by (unfold wf_layout, usize_modulus; cbn; lia).
  assert (Hc : wf_cursor c_v4) by (unfold wf_cursor, usize_modulus; cbn; lia).
  assert (Hk : 0 <= capacity v4) by (cbn; lia).
  assert (H : slicevec_clone (fun x => x) l_usize c_v4 v4
              = Some (mkCursor 4096 192 4096, mkSliceVec (mkSlice 4256 [10; 20; 30; 40]) 4))
    by reflexivity.
  split; [exact Hl|]. split; [exact Hc|]. split; [exact Hk|]. split; [exact H|].
  destruct (slicevec_clone_spec Z (fun x => x) l_usize c_v4 _ v4 _ Hl Hc Hk H)
    as (_ & _ & _ & Hfresh).
  exact (proj1 (Hfresh ltac:(cbn; lia))).
Defined.

Lemma split_off_returned_witness :
  0 <= 1 /\
  split_off l_usize c_v4 v4 1
  = Some (mkCursor 4096 184 4096, v4, mkSliceVec (mkSlice 4256 [20; 30; 40]) 3) /\
  elems (slice (mkSliceVec (mkSlice 4256 [20; 30; 40]) 3)) = skipn 1 (elems (slice v4)).
Proof.
  assert (H : split_off l_usize c_v4 v4 1
              = Some (mkCursor 4096 184 4096, v4, mkSliceVec (mkSlice 4256 [20; 30; 40]) 3))
    by reflexivity.
  split; [lia|]. split; [exact H|].
  destruct (split_off_returned Z l_usize c_v4 v4 1 ltac:(lia)) as (_ & Hs).
  exact (proj1 (Hs _ _ _ H)).
Defined.

Lemma Rc_clear_after_allocations_witness :
  Rc.allocate_each (Rc.init_capacity SystemAllocation 4096 65536)
    [(l_usize, 2); (mkLayout 1 1, 3)]
  = Some (Rc.mkArena (mkCursor 65536 147 4096) 1 SystemAllocation, [65600; 65680]) /\
  Rc.clear (Rc.mkArena (mkCursor 65536 147 4096) 1 SystemAllocation)
  = Some (Rc.init_capacity SystemAllocation 4096 65536).
Proof.
  assert (H : Rc.allocate_each (Rc.init_capacity SystemAllocation 4096 65536)
                [(l_usize, 2); (mkLayout 1 1, 3)]
              = Some (Rc.mkArena (mkCursor 65536 147 4096) 1 SystemAllocation, [65600; 65680]))
    by reflexivity.
  split; [exact H|].
  exact (proj1 (Rc_clear_after_allocations SystemAllocation 4096 65536 _ _ _ H)).
Defined.

Lemma Region_lock_without_clone_witness :
  let os := [Region.GenerationToken; Region.Allocate l_usize 1; Region.DropToken;
             Region.GenerationToken] in
  forallb (fun o => negb (Region.is_clone o)) os = true /\
  Region.run (Region.mkWorld (Region.init_capacity SystemAllocation 4096 65536) 0) os
  = Some (Region.mkWorld (Region.mkArena (mkCursor 65536 0 4096) SystemAllocation true) 1) /\
  (Region.live_tokens
     (Region.mkWorld (Region.mkArena (mkCursor 65536 0 4096) SystemAllocation true) 1) <= 1)%nat.
Proof.
  intros os.
  assert (Hos : forallb (fun o => negb (Region.is_clone o)) os = true) by reflexivity.
  assert (H : Region.run (Region.mkWorld (Region.init_capacity SystemAllocation 4096 65536) 0) os
              = Some (Region.mkWorld (Region.mkArena (mkCursor 65536 0 4096)
                                                     SystemAllocation true) 1))
    by reflexivity.
  split; [exact Hos|]. split; [exact H|].
  exact (proj1 (Region_lock_without_clone SystemAllocation 4096 65536 os _ Hos H)).
Defined.

Lemma lib_iter_forward_witness :
  0 < size l_usize /\ 0 <= 3 /\ 0 <= 4160 /\ 4160 + 3 * size l_usize < usize_modulus /\
  LibIter.collect 4 l_usize (LibIter.iter l_usize 4160 3)
  = ([4160; 4168; 4176], LibIter.mkIter 4184 4184).
Proof.
  split; [cbn; lia|]. split; [lia|]. split; [lia|].
  split; [unfold usize_modulus; cbn; lia|].
  destruct (lib_iter_forward l_usize 4160 3 ltac:(cbn; lia) ltac:(lia) ltac:(lia)
              ltac:(unfold usize_modulus; cbn; lia)) as (H & _).
  exact H.
Defined.

Lemma lib_next_back_past_end_witness :
  0 < size l_usize /\ 1 <= 3 /\
  LibIter.next_back l_usize (LibIter.iter l_usize 4160 3)
  = (LibIter.iter l_usize 4160 2, Some 4184).
Proof.
  split; [cbn; lia|]. split; [lia|].
  exact (proj1 (lib_next_back_past_end l_usize 4160 3 ltac:(cbn; lia) ltac:(lia))).
Defined.
